(** * empyricalRMT: ensemble formulas, eigenvalue construction, the Unfolded container

    A shallow embedding of [rmt/ensemble.py], [rmt/construct.py] and
    [rmt/unfold.py].

    Numbers.  A NumPy [float64] is read as an exact real number extended with
    the IEEE special values [inf], [-inf] and [nan]: rounding, overflow and
    the sign of zero are not modelled, while division by zero, the logarithm
    of a non-positive number and a fractional power of a negative number
    yield the special value NumPy yields.  Python integers are [Z].
    Where rounding itself decides what the code returns (the edge of the
    guard inside [goe_unfolded]), the code is read once more on binary64
    numbers, in [Binary64].

    Effects.  Exceptions are the [Raise] branch of [result]; the global
    NumPy random generator and the standard output are fields of [world],
    threaded through the monad [M]. *)

From Stdlib Require Import Floats.
From Stdlib Require Import Reals Lra Lia ZArith String Ascii Bool List.
From Stdlib Require Import Sorting.Sorted Sorting.Permutation Sorting.Mergesort Orders.
Import ListNotations.

Open Scope R_scope.

(* ================================================================= *)
(** ** Exceptions *)

Inductive exn : Type :=
| Exception (msg : string)
| ValueError (msg : string)
| NotImplementedError
| ZeroDivisionError
| IndexError.

Inductive result (A : Type) : Type :=
| Ok (a : A)
| Raise (e : exn).

Arguments Ok {A} a.
Arguments Raise {A} e.

Definition rbind {A B} (r : result A) (k : A -> result B) : result B :=
  match r with
  | Ok a => k a
  | Raise e => Raise e
  end.

Definition raises {A} (r : result A) : Prop :=
  match r with
  | Ok _ => False
  | Raise _ => True
  end.

(** A Python keyword argument that the caller may leave out. *)
Definition dflt {A} (d : A) (o : option A) : A :=
  match o with
  | Some a => a
  | None => d
  end.

(* ================================================================= *)
(** ** float64 *)

Inductive float64 : Type :=
| Fin (x : R)
| PInf
| NInf
| NaN.

Module F64.

Definition Rsign (x : R) : comparison :=
  match total_order_T x 0 with
  | inleft (left _) => Lt
  | inleft (right _) => Eq
  | inright _ => Gt
  end.

(** The infinity of a sign; [0 * inf] and [0 / 0] are [nan]. *)
Definition inf_of (c : comparison) : float64 :=
  match c with
  | Gt => PInf
  | Lt => NInf
  | Eq => NaN
  end.

Definition opp (x : float64) : float64 :=
  match x with
  | Fin a => Fin (- a)
  | PInf => NInf
  | NInf => PInf
  | NaN => NaN
  end.

Definition add (x y : float64) : float64 :=
  match x, y with
  | Fin a, Fin b => Fin (a + b)
  | NaN, _ | _, NaN => NaN
  | PInf, NInf | NInf, PInf => NaN
  | PInf, _ | _, PInf => PInf
  | NInf, _ | _, NInf => NInf
  end.

Definition sub (x y : float64) : float64 := add x (opp y).

Definition mul (x y : float64) : float64 :=
  match x, y with
  | Fin a, Fin b => Fin (a * b)
  | NaN, _ | _, NaN => NaN
  | Fin a, PInf | PInf, Fin a => inf_of (Rsign a)
  | Fin a, NInf | NInf, Fin a => inf_of (CompOpp (Rsign a))
  | PInf, PInf | NInf, NInf => PInf
  | PInf, NInf | NInf, PInf => NInf
  end.

(** A zero divisor is read as [+0]. *)
Definition div (x y : float64) : float64 :=
  match x, y with
  | Fin a, Fin b =>
      if Req_dec_T b 0 then inf_of (Rsign a) else Fin (a / b)
  | NaN, _ | _, NaN => NaN
  | Fin _, PInf | Fin _, NInf => Fin 0
  | PInf, Fin b => if Rlt_dec b 0 then NInf else PInf
  | NInf, Fin b => if Rlt_dec b 0 then PInf else NInf
  | PInf, PInf | PInf, NInf | NInf, PInf | NInf, NInf => NaN
  end.

(** [x ** n] for a Python integer exponent [n >= 0]. *)
Definition pow (x : float64) (n : nat) : float64 :=
  match x with
  | Fin a => Fin (a ^ n)
  | PInf => if Nat.eqb n 0 then Fin 1 else PInf
  | NInf => if Nat.eqb n 0 then Fin 1
            else if Nat.even n then PInf else NInf
  | NaN => if Nat.eqb n 0 then Fin 1 else NaN
  end.

(** [x ** y] for a float exponent [y] that is not an integer (the source
    uses 0.6 and 1.6 only). *)
Definition power (x : float64) (y : R) : float64 :=
  match x with
  | Fin a =>
      match Rsign a with
      | Gt => Fin (Rpower a y)
      | Eq => if Rlt_dec 0 y then Fin 0 else PInf
      | Lt => NaN
      end
  | PInf | NInf => if Rlt_dec 0 y then PInf else Fin 0
  | NaN => NaN
  end.

Definition exp (x : float64) : float64 :=
  match x with
  | Fin a => Fin (Rtrigo_def.exp a)
  | PInf => PInf
  | NInf => Fin 0
  | NaN => NaN
  end.

Definition log (x : float64) : float64 :=
  match x with
  | Fin a => match Rsign a with
             | Gt => Fin (ln a)
             | Eq => NInf
             | Lt => NaN
             end
  | PInf => PInf
  | NInf | NaN => NaN
  end.

Definition sqrt (x : float64) : float64 :=
  match x with
  | Fin a => if Rlt_dec a 0 then NaN else Fin (R_sqrt.sqrt a)
  | PInf => PInf
  | NInf | NaN => NaN
  end.

Definition arctan (x : float64) : float64 :=
  match x with
  | Fin a => Fin (atan a)
  | PInf => Fin (PI / 2)
  | NInf => Fin (- (PI / 2))
  | NaN => NaN
  end.

Definition abs (x : float64) : float64 :=
  match x with
  | Fin a => Fin (Rabs a)
  | PInf | NInf => PInf
  | NaN => NaN
  end.

(** Comparisons; every comparison with [nan] is false. *)
Definition leb (x y : float64) : bool :=
  match x, y with
  | NaN, _ | _, NaN => false
  | Fin a, Fin b => if Rle_dec a b then true else false
  | NInf, _ | _, PInf => true
  | _, _ => false
  end.

Definition ltb (x y : float64) : bool :=
  match x, y with
  | NaN, _ | _, NaN => false
  | Fin a, Fin b => if Rlt_dec a b then true else false
  | PInf, _ | _, NInf => false
  | _, _ => true
  end.

Definition of_Z (n : Z) : float64 := Fin (IZR n).

Definition pi : float64 := Fin PI.

End F64.

Arguments F64.opp !x : simpl nomatch.
Arguments F64.add !x !y : simpl nomatch.
Arguments F64.sub !x !y : simpl nomatch.
Arguments F64.mul !x !y : simpl nomatch.
Arguments F64.div !x !y : simpl nomatch.
Arguments F64.pow !x n : simpl nomatch.
Arguments F64.power !x y : simpl nomatch.
Arguments F64.exp !x : simpl nomatch.
Arguments F64.log !x : simpl nomatch.
Arguments F64.sqrt !x : simpl nomatch.
Arguments F64.arctan !x : simpl nomatch.
Arguments F64.abs !x : simpl nomatch.

Declare Scope f64_scope.
Delimit Scope f64_scope with f64.
Bind Scope f64_scope with float64.

Coercion Fin : R >-> float64.

Notation "x + y" := (F64.add x y) : f64_scope.
Notation "x - y" := (F64.sub x y) : f64_scope.
Notation "x * y" := (F64.mul x y) : f64_scope.
Notation "x / y" := (F64.div x y) : f64_scope.
Notation "- x" := (F64.opp x) : f64_scope.
Notation "x ** n" := (F64.pow x n) (at level 30, right associativity) : f64_scope.
Notation "x <=? y" := (F64.leb x y) : f64_scope.
Notation "x <? y" := (F64.ltb x y) : f64_scope.

(* ================================================================= *)
(** ** numpy.linspace *)

Module Np.

(** [np.linspace(start, stop, num)] for finite [start] and [stop]: [num]
    samples [start + i * step] with [step = (stop - start) / (num - 1)];
    a single sample is [start]; a negative [num] raises [ValueError]. *)
Definition linspace (start stop : R) (num : Z) : result (list R) :=
  if (num <? 0)%Z
  then Raise (ValueError "Number of samples must be non-negative.")
  else
    let div := (num - 1)%Z in
    let delta := stop - start in
    Ok (map (fun i : nat =>
               if (0 <? div)%Z
               then start + INR i * (delta / IZR div)
               else start + INR i * delta)
            (seq 0 (Z.to_nat num))).

(** An ndarray of finite samples, as float64 values. *)
Definition of_reals (l : list R) : list float64 := map Fin l.

(** [np.array(a)]: a fresh copy of the sequence. *)
Definition array (a : list float64) : list float64 := a.

End Np.

(* ================================================================= *)
(** ** rmt/ensemble.py *)

(** Constants and special functions the module imports: [np.euler_gamma]
    and [scipy.special.gamma]. *)
Class Special : Type := {
  euler_gamma : R;
  gamma : R -> R
}.

(** [pts if pts is not None else <generated grid>] *)
Definition points_or (pts : option (list float64)) (gen : result (list float64))
  : result (list float64) :=
  match pts with
  | Some s => Ok s
  | None => gen
  end.

Definition rmap {A B} (f : A -> B) (r : result A) : result B :=
  rbind r (fun a => Ok (f a)).

Module Poisson.

Definition nnsd_at (s : float64) : float64 := F64.exp (- s)%f64.

Definition nnsd (spacings_range : option (R * R)) (n_points : option Z)
    (spacings : option (list float64)) : result (list float64) :=
  let spacings_range := dflt (0, 3) spacings_range in
  let n_points := dflt 1000%Z n_points in
  rbind (points_or spacings
           (rmap Np.of_reals
              (Np.linspace (fst spacings_range) (snd spacings_range) n_points)))
    (fun s => Ok (map nnsd_at s)).

Definition brody_dist `{Special} (s : float64) (beta : R) : float64 :=
  let b1 := beta + 1 in
  let alpha := F64.power (Fin (gamma ((beta + 2) / b1))) b1 in
  (Fin b1 * alpha * F64.power s beta * F64.exp (- alpha * F64.power s b1))%f64.

Definition nnnsd `{Special} (spacings_range : option (R * R))
    (n_points : option Z) (spacings : option (list float64))
  : result (list float64) :=
  let spacings_range := dflt (0, 4) spacings_range in
  let n_points := dflt 1000%Z n_points in
  rbind (points_or spacings
           (rmap Np.of_reals
              (Np.linspace (fst spacings_range) (snd spacings_range) n_points)))
    (fun s => Ok (map (fun x => brody_dist x 0.6) s)).

Definition spectral_rigidity_at (L : float64) : float64 := (L / 15 / 2)%f64.

Definition spectral_rigidity (min_L max_L : option R) (L_grid_size : option Z)
    (L : option (list float64)) : result (list float64) :=
  let min_L := dflt 0.5 min_L in
  let max_L := dflt 20 max_L in
  let L_grid_size := dflt 50%Z L_grid_size in
  rbind (points_or L (rmap Np.of_reals (Np.linspace min_L max_L L_grid_size)))
    (fun L => Ok (map spectral_rigidity_at L)).

Definition level_variance_at (s : float64) : float64 := (s / 2)%f64.

Definition level_variance (min_L max_L : option R) (L_grid_size : option Z)
    (L : option (list float64)) : result (list float64) :=
  let min_L := dflt 0.5 min_L in
  let max_L := dflt 20 max_L in
  let L_grid_size := dflt 50%Z L_grid_size in
  rbind (points_or L (rmap Np.of_reals (Np.linspace min_L max_L L_grid_size)))
    (fun L => let s := L in Ok (map level_variance_at s)).

End Poisson.

Module GOE.

Definition nnsd_at (s : float64) : float64 :=
  let p := F64.pi in
  (((p * s) / 2) * F64.exp (- (p / 4) * s * s))%f64.

Definition nnsd (spacings_range : option (R * R)) (n_points : option Z)
    (spacings : option (list float64)) : result (list float64) :=
  let spacings_range := dflt (0, 3) spacings_range in
  let n_points := dflt 1000%Z n_points in
  rbind (points_or spacings
           (rmap Np.of_reals
              (Np.linspace (fst spacings_range) (snd spacings_range) n_points)))
    (fun s => Ok (map nnsd_at s)).

Definition nnnsd_at (s : float64) : float64 :=
  let p := F64.pi in
  ((Fin 2 ** 18 / (Fin 3 ** 6 * p ** 3)) * (s ** 4)
   * F64.exp (- ((64 / (9 * p)) * (s * s))))%f64.

(** The generated grid is divided by two; explicit spacings are not. *)
Definition nnnsd (spacings_range : option (R * R)) (n_points : option Z)
    (spacings : option (list float64)) : result (list float64) :=
  let spacings_range := dflt (0, 3) spacings_range in
  let n_points := dflt 1000%Z n_points in
  rbind (points_or spacings
           (rmap (fun g => map (fun x : float64 => (x / 2)%f64) (Np.of_reals g))
              (Np.linspace (fst spacings_range) (snd spacings_range) n_points)))
    (fun s => Ok (map nnnsd_at s)).

Definition spectral_rigidity_at `{Special} (s : float64) : float64 :=
  let p := F64.pi in
  let y := Fin euler_gamma in
  ((1 / (p ** 2)) * (F64.log (2 * p * s) + y - 5 / 4 - (p ** 2) / 8))%f64.

Definition spectral_rigidity `{Special} (min_L max_L : option R)
    (L_grid_size : option Z) (L : option (list float64))
  : result (list float64) :=
  let min_L := dflt 0.5 min_L in
  let max_L := dflt 20 max_L in
  let L_grid_size := dflt 50%Z L_grid_size in
  rbind (points_or L (rmap Np.of_reals (Np.linspace min_L max_L L_grid_size)))
    (fun L => let s := L in Ok (map spectral_rigidity_at s)).

Definition level_variance_at `{Special} (s : float64) : float64 :=
  let p := F64.pi in
  ((2 / (p ** 2)) * (F64.log (2 * p * s) + Fin euler_gamma + 1 - (p ** 2) / 8))%f64.

Definition level_variance `{Special} (min_L max_L : option R)
    (L_grid_size : option Z) (L : option (list float64))
  : result (list float64) :=
  let min_L := dflt 0.5 min_L in
  let max_L := dflt 20 max_L in
  let L_grid_size := dflt 50%Z L_grid_size in
  rbind (points_or L (rmap Np.of_reals (Np.linspace min_L max_L L_grid_size)))
    (fun L => let s := L in Ok (map level_variance_at s)).

End GOE.

Module GUE.

Definition nnsd_at (s : float64) : float64 :=
  let p := F64.pi in
  ((32 / p ** 2) * (s * s) * F64.exp (- (4 * s * s) / p))%f64.

(** The grid has 10000 samples whatever [n_points] is. *)
Definition nnsd (spacings_range : option (R * R)) (n_points : option Z)
    (spacings : option (list float64)) : result (list float64) :=
  let spacings_range := dflt (0, 3) spacings_range in
  let n_points := dflt 1000%Z n_points in
  rbind (points_or spacings
           (rmap Np.of_reals
              (Np.linspace (fst spacings_range) (snd spacings_range) 10000)))
    (fun s => Ok (map nnsd_at s)).

Definition nnnsd (spacings_range : option (R * R)) (n_points : option Z)
    (spacings : option (list float64)) : result (list float64) :=
  Raise NotImplementedError.

Definition spectral_rigidity_at `{Special} (s : float64) : float64 :=
  let p := F64.pi in
  ((1 / (2 * (p ** 2))) * (F64.log (2 * p * s) + Fin euler_gamma - 5 / 4))%f64.

Definition spectral_rigidity `{Special} (min_L max_L : option R)
    (L_grid_size : option Z) (L : option (list float64))
  : result (list float64) :=
  let min_L := dflt 0.5 min_L in
  let max_L := dflt 20 max_L in
  let L_grid_size := dflt 50%Z L_grid_size in
  rbind (points_or L (rmap Np.of_reals (Np.linspace min_L max_L L_grid_size)))
    (fun L => let s := L in Ok (map spectral_rigidity_at s)).

Definition level_variance_at `{Special} (s : float64) : float64 :=
  let p := F64.pi in
  ((1 / (p ** 2)) * (F64.log (2 * p * s) + Fin euler_gamma + 1))%f64.

Definition level_variance `{Special} (min_L max_L : option R)
    (L_grid_size : option Z) (L : option (list float64))
  : result (list float64) :=
  let min_L := dflt 0.5 min_L in
  let max_L := dflt 20 max_L in
  let L_grid_size := dflt 50%Z L_grid_size in
  rbind (points_or L (rmap Np.of_reals (Np.linspace min_L max_L L_grid_size)))
    (fun L => let s := L in Ok (map level_variance_at s)).

End GUE.

Module GSE.

Definition nnsd_at (s : float64) : float64 :=
  let p := F64.pi in
  ((262144 / (729 * p ** 3)) * (s ** 4)
   * F64.exp (- ((64 / (9 * p)) * (s * s))))%f64.

(** Both ends of the generated grid are [spacings_range[0]], and it has
    10000 samples whatever [n_points] is. *)
Definition nnsd (spacings_range : option (R * R)) (n_points : option Z)
    (spacings : option (list float64)) : result (list float64) :=
  let spacings_range := dflt (0, 3) spacings_range in
  let n_points := dflt 1000%Z n_points in
  rbind (points_or spacings
           (rmap Np.of_reals
              (Np.linspace (fst spacings_range) (fst spacings_range) 10000)))
    (fun s => Ok (map nnsd_at s)).

Definition nnnsd (spacings_range : option (R * R)) (n_points : option Z)
    (spacings : option (list float64)) : result (list float64) :=
  Raise NotImplementedError.

Definition spectral_rigidity_at `{Special} (s : float64) : float64 :=
  let p := F64.pi in
  let y := Fin euler_gamma in
  ((1 / (4 * (p ** 2))) * (F64.log (4 * p * s) + y - 5 / 4 + (p ** 2) / 8))%f64.

Definition spectral_rigidity `{Special} (min_L max_L : option R)
    (L_grid_size : option Z) (L : option (list float64))
  : result (list float64) :=
  let min_L := dflt 0.5 min_L in
  let max_L := dflt 20 max_L in
  let L_grid_size := dflt 50%Z L_grid_size in
  rbind (points_or L (rmap Np.of_reals (Np.linspace min_L max_L L_grid_size)))
    (fun L => let s := L in Ok (map spectral_rigidity_at s)).

Definition level_variance_at `{Special} (s : float64) : float64 :=
  let p := F64.pi in
  let y := Fin euler_gamma in
  ((1 / (2 * (p ** 2))) * (F64.log (4 * p * s) + y + 1 + (p ** 2) / 8))%f64.

Definition level_variance `{Special} (min_L max_L : option R)
    (L_grid_size : option Z) (L : option (list float64))
  : result (list float64) :=
  let min_L := dflt 0.5 min_L in
  let max_L := dflt 20 max_L in
  let L_grid_size := dflt 50%Z L_grid_size in
  rbind (points_or L (rmap Np.of_reals (Np.linspace min_L max_L L_grid_size)))
    (fun L => let s := L in Ok (map level_variance_at s)).

End GSE.

(* ================================================================= *)
(** ** The world: random generator and standard output *)

(** [tape] lists the standard-normal variates the global generator will
    hand out next; [stdout] holds the lines printed so far. *)
Record world : Type := {
  tape : nat -> R;
  stdout : list string
}.

Definition M (A : Type) : Type := world -> result A * world.

Definition ret {A} (a : A) : M A := fun w => (Ok a, w).

Definition raise {A} (e : exn) : M A := fun w => (Raise e, w).

Definition bind {A B} (c : M A) (k : A -> M B) : M B :=
  fun w =>
    match c w with
    | (Ok a, w') => k a w'
    | (Raise e, w') => (Raise e, w')
    end.

Definition lift {A} (r : result A) : M A := fun w => (r, w).

Notation "x <- c ;; k" := (bind c (fun x => k))
  (at level 61, c at next level, right associativity).
Notation "c ;;; k" := (bind c (fun _ => k))
  (at level 61, right associativity).

(** [for i in range(n): s = body i s] *)
Fixpoint for_each {S} (idx : list nat) (body : nat -> S -> M S) (s : S) : M S :=
  match idx with
  | [] => ret s
  | i :: rest => s' <- body i s ;; for_each rest body s'
  end.

Definition for_range {S} (n : Z) (body : nat -> S -> M S) (s : S) : M S :=
  for_each (seq 0 (Z.to_nat n)) body s.

Definition print (line : string) : M unit :=
  fun w => (Ok tt, {| tape := tape w; stdout := stdout w ++ [line] |}).

(* ================================================================= *)
(** ** Arrays and matrices *)

Definition matrix (A : Type) : Type := list (list A).

(** Complex entries as (real part, imaginary part). *)
Definition C : Type := R * R.

Definition square {A} (n : nat) (m : matrix A) : Prop :=
  length m = n /\ Forall (fun row => length row = n) m.

Module ROrder <: TotalLeBool.
Definition t := R.
Definition leb (x y : R) : bool := if Rle_dec x y then true else false.
Infix "<=?" := leb (at level 70, no associativity).
Lemma leb_total : forall a1 a2, leb a1 a2 = true \/ leb a2 a1 = true.
Proof.
  intros a1 a2. unfold leb.
  destruct (Rle_dec a1 a2); [now left|].
  destruct (Rle_dec a2 a1); [now right|]. lra.
Qed.
End ROrder.

Module RSort := Sort ROrder.

(** What the code relies on from outside the repository besides plain
    arithmetic: [np.linalg.eigvalsh] on real symmetric and on complex
    Hermitian input (ascending eigenvalues, one per row of the matrix, none
    for the empty matrix; a failure to converge is not modelled), the stream
    [np.random.seed] installs, [time.strftime] (the clock itself is not
    modelled), and the contents of memory handed out by [np.empty] (read as
    finite numbers; the code overwrites every cell before reading it). *)
Class External : Type := {
  eigvalsh : matrix R -> list R;
  eigvalsh_complex : matrix C -> list R;
  seeded : Z -> nat -> R;
  strftime : string -> string;
  uninitialised : nat -> R;
  eigvalsh_length :
    forall n m, square n m -> length (eigvalsh m) = n;
  eigvalsh_ascending :
    forall n m, square n m -> StronglySorted Rle (eigvalsh m);
  eigvalsh_complex_length :
    forall n m, square n m -> length (eigvalsh_complex m) = n;
  eigvalsh_complex_ascending :
    forall n m, square n m -> StronglySorted Rle (eigvalsh_complex m)
}.

Module Arr.

(** [a[i] = v] on a one-dimensional array. *)
Fixpoint set {A} (i : nat) (v : A) (a : list A) : result (list A) :=
  match a, i with
  | [], _ => Raise IndexError
  | _ :: rest, O => Ok (v :: rest)
  | x :: rest, S j => rmap (cons x) (set j v rest)
  end.

(** [a[i]] *)
Definition get {A} (i : nat) (a : list A) : result A :=
  match nth_error a i with
  | Some x => Ok x
  | None => Raise IndexError
  end.

(** [a[i, :] = row]: the row must have the width of [a], or one element
    that is broadcast. *)
Definition set_row {A} (i : nat) (row : list A) (a : matrix A)
  : result (matrix A) :=
  match nth_error a i with
  | None => Raise IndexError
  | Some old =>
      if Nat.eqb (length row) (length old) then set i row a
      else match row with
           | [x] => set i (repeat x (length old)) a
           | _ => Raise (ValueError "could not broadcast input array")
           end
  end.

Definition flatten {A} (a : matrix A) : list A := concat a.

Definition transpose {A} (d : A) (m : matrix A) : matrix A :=
  match m with
  | [] => []
  | row :: _ =>
      map (fun j => map (fun r => nth j r d) m) (seq 0 (length row))
  end.

(** Entrywise combination of two matrices of one shape. *)
Definition zip_with {A B D} (f : A -> B -> D) (m1 : matrix A) (m2 : matrix B)
  : matrix D :=
  map (fun rr => map (fun ab => f (fst ab) (snd ab)) (combine (fst rr) (snd rr)))
      (combine m1 m2).

Definition map_entries {A B} (f : A -> B) (m : matrix A) : matrix B :=
  map (map f) m.

(** [np.diag(v)] *)
Definition diag (v : list R) : matrix R :=
  map (fun i => map (fun j => if Nat.eqb i j then nth i v 0 else 0)
                    (seq 0 (length v)))
      (seq 0 (length v)).

(** [np.empty([n])] and [np.empty([rows, cols])] *)
Definition empty `{External} (n : Z) : result (list R) :=
  if (n <? 0)%Z then Raise (ValueError "negative dimensions are not allowed")
  else Ok (map uninitialised (seq 0 (Z.to_nat n))).

Definition empty2 `{External} (rows cols : Z) : result (matrix R) :=
  if ((rows <? 0) || (cols <? 0))%Z
  then Raise (ValueError "negative dimensions are not allowed")
  else Ok (map (fun r => map (fun c => uninitialised (r * Z.to_nat cols + c))
                             (seq 0 (Z.to_nat cols)))
               (seq 0 (Z.to_nat rows))).

(** [np.sort] *)
Definition sort (a : list R) : list R := RSort.sort a.

End Arr.

Module Random.

(** [np.random.seed(s)] *)
Definition seed `{External} (s : Z) : M unit :=
  fun w =>
    if ((s <? 0) || (2 ^ 32 <=? s))%Z
    then (Raise (ValueError "Seed must be between 0 and 2**32 - 1"), w)
    else (Ok tt, {| tape := seeded s; stdout := stdout w |}).

Definition draw (k : nat) : M (list R) :=
  fun w =>
    (Ok (map (tape w) (seq 0 k)),
     {| tape := fun i => tape w (i + k)%nat; stdout := stdout w |}).

(** [np.random.standard_normal(n)] *)
Definition standard_normal (n : Z) : M (list R) :=
  if (n <? 0)%Z then raise (ValueError "negative dimensions are not allowed")
  else draw (Z.to_nat n).

(** [np.random.standard_normal([rows, cols])], filled row by row *)
Definition standard_normal2 (rows cols : Z) : M (matrix R) :=
  if ((rows <? 0) || (cols <? 0))%Z
  then raise (ValueError "negative dimensions are not allowed")
  else
    flat <- draw (Z.to_nat rows * Z.to_nat cols) ;;
    ret (map (fun r => firstn (Z.to_nat cols) (skipn (r * Z.to_nat cols) flat))
             (seq 0 (Z.to_nat rows))).

(** [np.random.normal(loc, scale, [rows, cols])] *)
Definition normal2 (loc scale : R) (rows cols : Z) : M (matrix R) :=
  if Rlt_dec scale 0 then raise (ValueError "scale < 0")
  else
    z <- standard_normal2 rows cols ;;
    ret (Arr.map_entries (fun x => loc + scale * x) z).

End Random.

(* ================================================================= *)
(** ** rmt/unfold.py *)

Module EigVals.

(** Modelled from the spec: the base class [EigVals] of
    [rmt/_eigvals.py], which is not among the sources.  Its constructor
    takes a raw numeric sequence and keeps an owned copy of it; that copy
    is what [Unfolded] calls its [originals]. *)
Record t : Type := { originals : list float64 }.

Definition __init__ (eigenvalues : list float64) : t :=
  {| originals := eigenvalues |}.

End EigVals.

(** [pd.DataFrame({...})]: named columns of one common length. *)
Definition DataFrame : Type := list (string * list float64).

Definition pd_DataFrame (cols : list (string * list float64)) : result DataFrame :=
  match cols with
  | [] => Ok []
  | (_, c0) :: rest =>
      if forallb (fun nc => Nat.eqb (length (snd nc)) (length c0)) rest
      then Ok cols
      else Raise (ValueError "All arrays must be of the same length")
  end.

(** The estimators of [rmt/observables] and the renderers of [rmt/plot.py]
    are not among the sources; they are taken as they are called.  Each may
    draw random numbers, print and fail. *)
Class Analysis : Type := {
  PlotResult : Type;
  spectralRigidity :
    list float64 -> forall (c_iters : Z) (L_grid_size : option Z)
      (min_L max_L : R) (show_progress : bool),
      M (list float64 * list float64);
  level_number_variance :
    list float64 -> forall (c_iters : Z) (L_grid_size : option Z)
      (min_L max_L : R) (show_progress : bool),
      M (list float64 * list float64);
  plot_spectral_rigidity_ :
    list float64 -> DataFrame -> forall (title mode : string)
      (outfile : option string) (ensembles : list string),
      M (option PlotResult);
  plot_level_number_variance_ :
    list float64 -> DataFrame -> forall (title mode : string)
      (outfile : option string) (ensembles : list string),
      M (option PlotResult)
}.

Module Unfolded.

Record t : Type := {
  super : EigVals.t;
  _vals : list float64
}.

Definition __init__ (originals unfolded : list float64) : t :=
  {| super := EigVals.__init__ originals;
     _vals := Np.array unfolded |}.

Definition originals (self : t) : list float64 := EigVals.originals (super self).

Definition values (self : t) : list float64 := _vals self.

Definition vals (self : t) : list float64 := _vals self.

Definition default_ensembles : list string :=
  ["poisson"; "goe"; "gue"; "gse"]%string.

Definition plot_spectral_rigidity `{Analysis} (self : t)
    (min_L max_L : option R) (L_grid_size : option Z) (c_iters : option Z)
    (title mode : option string) (outfile : option string)
    (ensembles : option (list string)) (show_progress : option bool)
  : M (list float64 * list float64 * option PlotResult) :=
  let min_L := dflt 2 min_L in
  let max_L := dflt 50 max_L in
  let c_iters := dflt 50000%Z c_iters in
  let title := dflt "Spectral Rigidity"%string title in
  let mode := dflt "block"%string mode in
  let ensembles := dflt default_ensembles ensembles in
  let show_progress := dflt true show_progress in
  let unfolded := values self in
  Ld <- spectralRigidity unfolded c_iters L_grid_size min_L max_L
          show_progress ;;
  let L := fst Ld in
  let delta := snd Ld in
  df <- lift (pd_DataFrame [("L"%string, L); ("delta"%string, delta)]) ;;
  plot_result <- plot_spectral_rigidity_ unfolded df title mode outfile
                   ensembles ;;
  ret (L, delta, plot_result).

Definition plot_level_variance `{Analysis} (self : t)
    (min_L max_L : option R) (c_iters : option Z) (L_grid_size : option Z)
    (title mode : option string) (outfile : option string)
    (ensembles : option (list string)) (show_progress : option bool)
  : M (list float64 * list float64 * option PlotResult) :=
  let min_L := dflt 2 min_L in
  let max_L := dflt 50 max_L in
  let c_iters := dflt 50000%Z c_iters in
  let title := dflt "Level Number Variance"%string title in
  let mode := dflt "block"%string mode in
  let ensembles := dflt default_ensembles ensembles in
  let show_progress := dflt true show_progress in
  let unfolded := values self in
  Ls <- level_number_variance unfolded c_iters L_grid_size min_L max_L
          show_progress ;;
  let L := fst Ls in
  let sigma := snd Ls in
  df <- lift (pd_DataFrame [("L"%string, L); ("sigma"%string, sigma)]) ;;
  plot_result <- plot_level_number_variance_ unfolded df title mode outfile
                   ensembles ;;
  ret (L, sigma, plot_result).

End Unfolded.

(* ================================================================= *)
(** ** rmt/construct.py *)

(** A matrix handed to [np.linalg.eigvalsh] is real or complex. *)
Inductive ndmatrix : Type :=
| RealM (m : matrix R)
| ComplexM (m : matrix C).

Definition linalg_eigvalsh `{External} (m : ndmatrix) : list R :=
  match m with
  | RealM a => eigvalsh a
  | ComplexM a => eigvalsh_complex a
  end.

(** [x != y] on finite floats *)
Definition Rneqb (x y : R) : bool := if Req_dec_T x y then false else true.

(** [int(a / b)]: the quotient is read exactly and truncated toward zero. *)
Definition int_truediv (a b : Z) : result Z :=
  if (b =? 0)%Z then Raise ZeroDivisionError else Ok (Z.quot a b).

Definition newline : string := String (ascii_of_nat 10) EmptyString.

Definition _generate_GOE_matrix `{External} (size : option Z) (mean sd : option R)
    (seed : option Z) : M (matrix R) :=
  let size := dflt 100%Z size in
  let mean := dflt 0 mean in
  let sd := dflt 1 sd in
  match seed with
  | Some s => Random.seed s
  | None => ret tt
  end ;;;
  M0 <- (if orb (Rneqb mean 0) (Rneqb sd 1)
         then Random.normal2 mean sd size size
         else Random.standard_normal2 size size) ;;
  ret (Arr.map_entries (fun x => x / sqrt 2)
         (Arr.zip_with Rplus M0 (Arr.transpose 0 M0))).

Definition _generate_poisson (size : option Z) : M (matrix R) :=
  let size := dflt 100%Z size in
  v <- Random.standard_normal size ;;
  ret (Arr.diag v).

Definition kinds_message : string :=
  "`kind` must be one of ['goe', 'gue', 'poisson', 'uniform']".

Definition generate_eigs `{External} (matsize : Z) (mean sd : option R)
    (kind : option string) (log : option bool) : M (list R) :=
  let mean := dflt 0 mean in
  let sd := dflt 1 sd in
  let kind := dflt "goe"%string kind in
  let log := dflt false log in
  Mx <- (if String.eqb kind "poisson" then
           m <- _generate_poisson (Some matsize) ;; ret (RealM m)
         else if String.eqb kind "uniform" then
           raise (Exception "UNIMPLEMENTED!")
         else if String.eqb kind "gue" then
           re <- Random.standard_normal2 matsize matsize ;;
           im <- Random.standard_normal2 matsize matsize ;;
           let A : matrix C := Arr.zip_with (fun x y => (x, y)) re im in
           let AH := Arr.transpose (0, 0)
                       (Arr.map_entries (fun z : C => (fst z, - snd z)) A) in
           ret (ComplexM
                  (Arr.map_entries (fun z : C => (fst z / 2, snd z / 2))
                     (Arr.zip_with (fun a b : C => (fst a + fst b, snd a + snd b))
                        A AH)))
         else if String.eqb kind "goe" then
           m <- _generate_GOE_matrix (Some matsize) (Some mean) (Some sd) None ;;
           ret (RealM m)
         else raise (ValueError kinds_message)) ;;
  (if log then
     print (newline ++ strftime "%H:%M:%S (%b%d)" ++ " -- computing eigenvalues...")
   else ret tt) ;;;
  let eigs := linalg_eigvalsh Mx in
  (if log then print (strftime "%H:%M:%S" ++ " -- computed eigenvalues.")
   else ret tt) ;;;
  ret eigs.

(** The closed form inside [goe_unfolded]; [N] is the enclosing [matsize]. *)
Definition explicit (N : Z) (E : float64) : result float64 :=
  let n := F64.of_Z N in
  if (F64.abs E <=? 2 * F64.sqrt n)%f64 then
    Ok (0.5
        + (E / (4 * n * F64.pi)) * F64.sqrt (4 * n - E * E)
        + (1 / F64.pi) * F64.arctan (E / F64.sqrt (4 * n - E * E)))%f64
  else if (E <? - 2 * F64.sqrt n)%f64 then Ok (Fin 0)
  else if (2 * F64.sqrt n <? E)%f64 then Ok (Fin 1)
  else Raise (ValueError "Unreachable!").

Definition goe_unfolded `{External} (matsize : Z) : M Unfolded.t :=
  let N := matsize in
  Mx <- _generate_GOE_matrix (Some N) (Some 0) (Some 1) None ;;
  let eigs := Np.of_reals (eigvalsh Mx) in
  unfolded <- lift (rmap Np.of_reals (Arr.empty N)) ;;
  unfolded <- for_range N
                (fun i unfolded =>
                   E <- lift (Arr.get i eigs) ;;
                   v <- lift (explicit N E) ;;
                   lift (Arr.set i (F64.of_Z N * v)%f64 unfolded))
                unfolded ;;
  ret (Unfolded.__init__ eigs unfolded).

Definition fast_poisson_eigs `{External} (matsize sub_matsize : option Z)
  : M (list R) :=
  let matsize := dflt 1000%Z matsize in
  let sub_matsize := dflt 100%Z sub_matsize in
  if (matsize <? 100)%Z then
    generate_eigs matsize None None (Some "goe"%string) None
  else if (sub_matsize >=? matsize)%Z then
    raise (ValueError "Submatrices must be smaller in order to speed calculation.")
  else
    n_submats <- lift (int_truediv matsize sub_matsize) ;;
    let last_matsize := (matsize mod sub_matsize)%Z in
    eigs_submats <- lift (Arr.empty2 n_submats sub_matsize) ;;
    eigs_submats <- for_range n_submats
                      (fun i eigs_submats =>
                         Mx <- _generate_GOE_matrix (Some sub_matsize) None None None ;;
                         let sub_eigs := eigvalsh Mx in
                         lift (Arr.set_row i sub_eigs eigs_submats))
                      eigs_submats ;;
    Mr <- _generate_GOE_matrix (Some last_matsize) None None None ;;
    let eigs_remain := eigvalsh Mr in
    let eigs := Arr.flatten eigs_submats ++ eigs_remain in
    ret (Arr.sort eigs).

Definition generate_uniform (matsize : option Z) (lower upper : option R)
  : M (list R) :=
  raise NotImplementedError.

(** [a.reshape(n, n)] of a one-dimensional array: both dimensions negative
    is refused (at most one may be left unknown), and so is a size that
    does not match. *)
Definition reshape_square (n : Z) (flat : list R) : result (matrix R) :=
  if (n <? 0)%Z then Raise (ValueError "can only specify one unknown dimension")
  else if negb (Nat.eqb (Z.to_nat n * Z.to_nat n) (length flat))
  then Raise (ValueError "cannot reshape array")
  else Ok (map (fun r => firstn (Z.to_nat n) (skipn (r * Z.to_nat n) flat))
               (seq 0 (Z.to_nat n))).

(** [np.ma.identity(n)]: ones on the diagonal, nothing masked. *)
Definition ma_identity (n : Z) : result (matrix R) :=
  if (n <? 0)%Z then Raise (ValueError "negative dimensions are not allowed")
  else Ok (map (fun i => map (fun j => if Nat.eqb i j then 1 else 0)
                             (seq 0 (Z.to_nat n)))
               (seq 0 (Z.to_nat n))).

Definition _almost_identity (size : option Z) : M (matrix R) :=
  let size := dflt 100%Z size in
  flat <- Random.standard_normal (size * size) ;;
  E0 <- lift (reshape_square size flat) ;;
  let E := Arr.map_entries (fun x => x / sqrt 2)
             (Arr.zip_with Rplus E0 (Arr.transpose 0 E0)) in
  Mi <- lift (ma_identity size) ;;
  ret (Arr.zip_with Rplus Mi E).

(** [col * row] for a column of shape (n, 1) and a row of shape (1, n),
    which NumPy broadcasts to the n x n table of products. *)
Definition broadcast_mul (col row : matrix R) : matrix R :=
  map (fun r => map (fun c => nth 0 r 0 * c) (nth 0 row [])) col.

Definition _random_1vector (size : option Z) : M (matrix R) :=
  let size := dflt 100%Z size in
  vals <- Random.standard_normal2 size 1 ;;
  ret (broadcast_mul vals (Arr.transpose 0 vals)).

(* ================================================================= *)
(** ** The closed form of goe_unfolded in IEEE binary64 *)

(** [np.arctan] on arguments that are not [nan]. *)
Class Libm : Type := {
  libm_arctan : float -> float
}.

(** The closed form inside [goe_unfolded] once more, this time on binary64
    numbers with their rounding (the kernel's primitive floats): [explicit]
    above reads a float as an exact real, and so cannot tell the rounded
    [2 * np.sqrt(N)] of the guard from the rounded [E * E] under the square
    root. *)
Module Binary64.

(** [np.pi] *)
Definition pi : float := 0x1.921fb54442d18p+1%float.

(** The float64 of a Python integer below [2^53] in absolute value. *)
Definition of_int (n : Z) : float :=
  if (n <? 0)%Z then (- PrimFloat.of_uint63 (Uint63.of_Z (- n)))%float
  else PrimFloat.of_uint63 (Uint63.of_Z n).

(** [np.arctan]; [nan] gives [nan]. *)
Definition arctan `{Libm} (x : float) : float :=
  if PrimFloat.is_nan x then PrimFloat.nan else libm_arctan x.

Definition explicit `{Libm} (N : Z) (E : float) : result float :=
  let sqrt_N := PrimFloat.sqrt (of_int N) in
  if PrimFloat.leb (PrimFloat.abs E) (2 * sqrt_N)%float then
    Ok (0.5
        + (E / (of_int (4 * N) * pi)) * PrimFloat.sqrt (of_int (4 * N) - E * E)
        + (1 / pi) * arctan (E / PrimFloat.sqrt (of_int (4 * N) - E * E)))%float
  else if PrimFloat.ltb E (of_int (-2) * sqrt_N)%float then Ok 0%float
  else if PrimFloat.ltb (2 * sqrt_N)%float E then Ok 1%float
  else Raise (ValueError "Unreachable!").

(** [N * explicit(eigs[i])], the value the loop of [goe_unfolded] stores
    for the eigenvalue [E = eigs[i]]. *)
Definition unfolded_entry `{Libm} (N : Z) (E : float) : result float :=
  rmap (fun v => (of_int N * v)%float) (explicit N E).

(** The float64 [2 * np.sqrt(2)], printed 2.8284271247461903. *)
Definition edge_of_two : float := 0x1.6a09e667f3bcdp+1%float.

End Binary64.

(* ================================================================= *)
(** ** The spec's table of closed forms (spec section 4.3) *)

Inductive ensemble : Type := poisson | goe | gue | gse.

Module Table.

(** Spectral rigidity, as real-valued closed forms of [L]. *)
Definition delta3_real `{Special} (e : ensemble) (L : R) : R :=
  match e with
  | poisson => L / 30
  | goe => (1 / PI ^ 2) * (ln (2 * PI * L) + euler_gamma - 5 / 4 - PI ^ 2 / 8)
  | gue => (1 / (2 * PI ^ 2)) * (ln (2 * PI * L) + euler_gamma - 5 / 4)
  | gse => (1 / (4 * PI ^ 2)) * (ln (4 * PI * L) + euler_gamma - 5 / 4 + PI ^ 2 / 8)
  end.

(** Level-number variance, as real-valued closed forms of [L]. *)
Definition sigma2_real `{Special} (e : ensemble) (L : R) : R :=
  match e with
  | poisson => L / 2
  | goe => (2 / PI ^ 2) * (ln (2 * PI * L) + euler_gamma + 1 - PI ^ 2 / 8)
  | gue => (1 / PI ^ 2) * (ln (2 * PI * L) + euler_gamma + 1)
  | gse => (1 / (2 * PI ^ 2)) * (ln (4 * PI * L) + euler_gamma + 1 + PI ^ 2 / 8)
  end.

(** The same table read in float64 arithmetic, which also gives it a value
    where the real logarithm has none. *)
Definition delta3 `{Special} (e : ensemble) (L : float64) : float64 :=
  let pi := F64.pi in
  let g := Fin euler_gamma in
  match e with
  | poisson => L / 30
  | goe => (1 / pi ** 2) * (F64.log (2 * pi * L) + g - 5 / 4 - pi ** 2 / 8)
  | gue => (1 / (2 * pi ** 2)) * (F64.log (2 * pi * L) + g - 5 / 4)
  | gse => (1 / (4 * pi ** 2)) * (F64.log (4 * pi * L) + g - 5 / 4 + pi ** 2 / 8)
  end%f64.

Definition sigma2 `{Special} (e : ensemble) (L : float64) : float64 :=
  let pi := F64.pi in
  let g := Fin euler_gamma in
  match e with
  | poisson => L / 2
  | goe => (2 / pi ** 2) * (F64.log (2 * pi * L) + g + 1 - pi ** 2 / 8)
  | gue => (1 / pi ** 2) * (F64.log (2 * pi * L) + g + 1)
  | gse => (1 / (2 * pi ** 2)) * (F64.log (4 * pi * L) + g + 1 + pi ** 2 / 8)
  end%f64.

(** Nearest-spacing distribution, as real-valued closed forms of [s]; the
    GSE entry is the functional form of the GOE next-nearest formula. *)
Definition nnsd_real (e : ensemble) (s : R) : R :=
  match e with
  | poisson => exp (- s)
  | goe => (PI * s / 2) * exp (- (PI / 4) * s ^ 2)
  | gue => (32 / PI ^ 2) * s ^ 2 * exp (- 4 * s ^ 2 / PI)
  | gse => (2 ^ 18 / (3 ^ 6 * PI ^ 3)) * s ^ 4 * exp (- (64 / (9 * PI)) * s ^ 2)
  end.

Definition goe_nnnsd_real (s : R) : R :=
  (2 ^ 18 / (3 ^ 6 * PI ^ 3)) * s ^ 4 * exp (- (64 / (9 * PI)) * s ^ 2).

Definition nnsd (e : ensemble) (s : float64) : float64 :=
  let pi := F64.pi in
  match e with
  | poisson => F64.exp (- s)
  | goe => (pi * s / 2) * F64.exp (- (pi / 4) * s ** 2)
  | gue => (32 / pi ** 2) * s ** 2 * F64.exp (- 4 * s ** 2 / pi)
  | gse => (Fin 2 ** 18 / (Fin 3 ** 6 * pi ** 3)) * s ** 4
           * F64.exp (- (64 / (9 * pi)) * s ** 2)
  end%f64.

Definition goe_nnnsd (s : float64) : float64 :=
  let pi := F64.pi in
  ((Fin 2 ** 18 / (Fin 3 ** 6 * pi ** 3)) * s ** 4
   * F64.exp (- (64 / (9 * pi)) * s ** 2))%f64.

(** The Brody distribution with its normalisation
    [alpha = Gamma((beta + 2) / (beta + 1)) ^ (beta + 1)]. *)
Definition brody `{Special} (s : float64) (beta : R) : float64 :=
  let alpha := F64.power (Fin (gamma ((beta + 2) / (beta + 1)))) (beta + 1) in
  (Fin (beta + 1) * alpha * F64.power s beta
   * F64.exp (- alpha * F64.power s (beta + 1)))%f64.

Definition poisson_nnnsd `{Special} (s : float64) : float64 := brody s 0.6.

(** [arctan(e / d)] for a divisor [d >= 0], with [arctan] of an infinite
    quotient read as [PI / 2] or [- PI / 2] where [d = 0]. *)
Definition arctan_ratio (e d : R) : R :=
  if Req_dec_T d 0
  then (if Rlt_dec 0 e then PI / 2 else - (PI / 2))
  else atan (e / d).

(** The unscaled closed form of the unfolded value of an eigenvalue [E] of
    a GOE matrix of size [N] (spec section 4.2). *)
Definition unfolded_unscaled (N E : R) : R :=
  if Rle_dec (Rabs E) (2 * sqrt N) then
    1 / 2
    + (E / (4 * N * PI)) * sqrt (4 * N - E ^ 2)
    + (1 / PI) * arctan_ratio E (sqrt (4 * N - E ^ 2))
  else if Rlt_dec E (- (2 * sqrt N)) then 0
  else 1.

(** An evenly spaced grid of [n] points from [a] to [b]. *)
Definition evenly_spaced (a b : R) (n : nat) : list R :=
  map (fun i : nat => a + INR i * ((b - a) / (INR n - 1))) (seq 0 n).

End Table.

(** Dispatch on the ensemble, as the callers of [ensemble.py] do by class. *)
Definition spectral_rigidity `{Special} (e : ensemble) :=
  match e with
  | poisson => Poisson.spectral_rigidity
  | goe => GOE.spectral_rigidity
  | gue => GUE.spectral_rigidity
  | gse => GSE.spectral_rigidity
  end.

Definition level_variance `{Special} (e : ensemble) :=
  match e with
  | poisson => Poisson.level_variance
  | goe => GOE.level_variance
  | gue => GUE.level_variance
  | gse => GSE.level_variance
  end.

Definition nnsd (e : ensemble) :=
  match e with
  | poisson => Poisson.nnsd
  | goe => GOE.nnsd
  | gue => GUE.nnsd
  | gse => GSE.nnsd
  end.

Definition nnnsd `{Special} (e : ensemble) :=
  match e with
  | poisson => Poisson.nnnsd
  | goe => GOE.nnnsd
  | gue => GUE.nnnsd
  | gse => GSE.nnnsd
  end.

(** The grid an observable is evaluated on: the explicit points when they
    are given, otherwise [n] evenly spaced points from [a] to [b]. *)
Inductive evaluation_grid (a b : R) (n : Z)
  : option (list float64) -> list float64 -> Prop :=
| grid_explicit (pts : list float64) :
    evaluation_grid a b n (Some pts) pts
| grid_generated :
    (0 <= n)%Z ->
    evaluation_grid a b n None
      (Np.of_reals (Table.evenly_spaced a b (Z.to_nat n))).

(* ================================================================= *)
(** ** Entries of matrices, generator state and log lines *)

(** [m[i, j]] *)
Definition entry (m : matrix R) (i j : nat) : R := nth j (nth i m []) 0.

Definition entry_complex (m : matrix C) (i j : nat) : C :=
  nth j (nth i m []) (0, 0).

Definition symmetric (n : nat) (m : matrix R) : Prop :=
  square n m
  /\ forall i j, (i < n)%nat -> (j < n)%nat -> entry m i j = entry m j i.

(** Equal to its conjugate transpose. *)
Definition hermitian (n : nat) (m : matrix C) : Prop :=
  square n m
  /\ forall i j, (i < n)%nat -> (j < n)%nat ->
       entry_complex m i j
       = (fst (entry_complex m j i), - snd (entry_complex m j i)).

(** The generator after [k] more draws. *)
Definition advanced (k : nat) (w : world) : world :=
  {| tape := fun i => tape w (i + k)%nat; stdout := stdout w |}.

(** The two lines [generate_eigs] prints when [log] is set. *)
Definition log_lines `{External} : list string :=
  [(newline ++ strftime "%H:%M:%S (%b%d)" ++ " -- computing eigenvalues...")%string;
   (strftime "%H:%M:%S" ++ " -- computed eigenvalues.")%string].

(* ================================================================= *)
(** ** Concrete inputs *)

(** Stand-ins for the two imported constants, for evaluating statements at
    concrete inputs that do not depend on them. *)
Definition nominal_special : Special :=
  {| euler_gamma := 0.5772156649; gamma := fun _ => 1 |}.

(** The diagonal of a matrix; for a diagonal matrix these are its
    eigenvalues. *)
Definition diagonal (m : matrix R) : list R :=
  map (fun i => nth i (nth i m []) 0) (seq 0 (length m)).

Definition diagonal_complex (m : matrix C) : list R :=
  map (fun i => fst (nth i (nth i m []) (0, 0))) (seq 0 (length m)).

(** A world whose generator hands out zeros and that has printed nothing. *)
Definition quiet_world : world := {| tape := fun _ => 0; stdout := [] |}.

(** One sub-block: the eigenvalues of a generated square matrix. *)
Definition is_block `{External} (size : nat) (b : list R) : Prop :=
  exists m, square size m /\ b = eigvalsh m.

(* ================================================================= *)
(** ** Arithmetic of float64 on finite and special values *)

Lemma Rsign_pos x : 0 < x -> F64.Rsign x = Gt.
Proof.
  intros Hx. unfold F64.Rsign.
  destruct (total_order_T x 0) as [[Hlt | Heq] | Hgt]; try reflexivity; lra.
Qed.

Lemma Rsign_neg x : x < 0 -> F64.Rsign x = Lt.
Proof.
  intros Hx. unfold F64.Rsign.
  destruct (total_order_T x 0) as [[Hlt | Heq] | Hgt]; try reflexivity; lra.
Qed.

Lemma Rsign_zero : F64.Rsign 0 = Eq.
Proof.
  unfold F64.Rsign.
  destruct (total_order_T 0 0) as [[Hlt | Heq] | Hgt]; try reflexivity; lra.
Qed.

Lemma div_fin a b : b <> 0 -> (Fin a / Fin b)%f64 = Fin (a / b).
Proof.
  intros Hb. unfold F64.div. destruct (Req_dec_T b 0); [contradiction | reflexivity].
Qed.

Lemma div_fin_zero_pos a : 0 < a -> (Fin a / Fin 0)%f64 = PInf.
Proof.
  intros Ha. unfold F64.div.
  destruct (Req_dec_T 0 0) as [_ | Hne]; [| now elim Hne].
  now rewrite Rsign_pos.
Qed.

Lemma div_fin_zero_neg a : a < 0 -> (Fin a / Fin 0)%f64 = NInf.
Proof.
  intros Ha. unfold F64.div.
  destruct (Req_dec_T 0 0) as [_ | Hne]; [| now elim Hne].
  now rewrite Rsign_neg.
Qed.

Lemma log_pos a : 0 < a -> F64.log (Fin a) = Fin (ln a).
Proof. intros Ha. unfold F64.log. now rewrite Rsign_pos. Qed.

Lemma sqrt_nonneg a : 0 <= a -> F64.sqrt (Fin a) = Fin (sqrt a).
Proof.
  intros Ha. unfold F64.sqrt. destruct (Rlt_dec a 0); [lra | reflexivity].
Qed.

(** Signs of the constants built from [PI]. *)
Ltac sign_of :=
  lazymatch goal with
  | |- 0 < PI => exact PI_RGT_0
  | |- 0 < _ / _ => apply Rdiv_lt_0_compat; sign_of
  | |- 0 < _ * _ => apply Rmult_lt_0_compat; sign_of
  | |- 0 < _ ^ _ => apply pow_lt; sign_of
  | |- 0 < _ => lra
  | |- 0 <= _ => apply Rlt_le; sign_of
  | |- - _ < 0 => apply Ropp_lt_gt_0_contravar; sign_of
  | |- _ > 0 => apply Rlt_gt; sign_of
  | |- _ <> 0 => apply Rgt_not_eq; sign_of
  | |- _ => lra
  end.

Ltac fin_side :=
  pose proof PI_RGT_0;
  first [ lra | sign_of | nra | apply Rgt_not_eq; nra | apply Rlt_not_eq; nra ].

Lemma mul_fin_pinf a : (Fin a * PInf)%f64 = F64.inf_of (F64.Rsign a).
Proof. reflexivity. Qed.

Lemma mul_pinf_fin a : (PInf * Fin a)%f64 = F64.inf_of (F64.Rsign a).
Proof. reflexivity. Qed.

Lemma mul_fin_ninf a : (Fin a * NInf)%f64 = F64.inf_of (CompOpp (F64.Rsign a)).
Proof. reflexivity. Qed.

Lemma mul_ninf_fin a : (NInf * Fin a)%f64 = F64.inf_of (CompOpp (F64.Rsign a)).
Proof. reflexivity. Qed.

Lemma div_pinf_fin b : 0 <= b -> (PInf / Fin b)%f64 = PInf.
Proof. intros Hb. unfold F64.div. destruct (Rlt_dec b 0); [lra | reflexivity]. Qed.

Lemma div_ninf_fin b : 0 <= b -> (NInf / Fin b)%f64 = NInf.
Proof. intros Hb. unfold F64.div. destruct (Rlt_dec b 0); [lra | reflexivity]. Qed.

Lemma Rsign_eq0 x : x = 0 -> F64.Rsign x = Eq.
Proof. intros ->. apply Rsign_zero. Qed.

(** Evaluate float64 operations on finite constants and special values,
    innermost first. *)
Ltac f64_eval :=
  unfold F64.pi, F64.of_Z;
  repeat first
    [ progress cbn [F64.add F64.sub F64.mul F64.opp F64.pow F64.exp F64.arctan
                    F64.abs F64.div F64.log F64.sqrt
                    Nat.eqb Nat.even F64.inf_of CompOpp]
    | rewrite div_fin by fin_side
    | rewrite log_pos by fin_side
    | rewrite sqrt_nonneg by fin_side
    | rewrite mul_fin_pinf
    | rewrite mul_pinf_fin
    | rewrite mul_fin_ninf
    | rewrite mul_ninf_fin
    | rewrite div_pinf_fin by fin_side
    | rewrite div_ninf_fin by fin_side
    | rewrite Rsign_pos by fin_side
    | rewrite Rsign_neg by fin_side
    | rewrite Rsign_eq0 by fin_side ].

(** Close an equation between two finite results. *)
Ltac real_close :=
  repeat match goal with
         | |- Fin _ = Fin _ => f_equal
         | |- _ * exp _ = _ * exp _ => f_equal
         | |- exp _ = exp _ => f_equal
         end;
  try reflexivity; try (field; fin_side); try ring.

Lemma delta3_finite `{Special} e (L : R) :
  0 < L -> Table.delta3 e (Fin L) = Fin (Table.delta3_real e L).
Proof.
  intros HL. destruct e; unfold Table.delta3, Table.delta3_real; cbv zeta; f64_eval;
    real_close.
Qed.

Lemma sigma2_finite `{Special} e (L : R) :
  0 < L -> Table.sigma2 e (Fin L) = Fin (Table.sigma2_real e L).
Proof.
  intros HL. destruct e; unfold Table.sigma2, Table.sigma2_real; cbv zeta; f64_eval;
    real_close.
Qed.

(* ================================================================= *)
(** ** numpy.linspace yields the evenly spaced grid *)

Lemma linspace_evenly_spaced a b n :
  (0 <= n)%Z -> Np.linspace a b n = Ok (Table.evenly_spaced a b (Z.to_nat n)).
Proof.
  intros Hn. unfold Np.linspace, Table.evenly_spaced.
  destruct (Z.ltb_spec n 0) as [Hneg | _]; [lia |].
  f_equal. apply map_ext_in. intros i Hi. apply in_seq in Hi.
  destruct (Z.ltb_spec 0 (n - 1)) as [Hdiv | Hdiv].
  - rewrite minus_IZR, (INR_IZR_INZ (Z.to_nat n)), Z2Nat.id by lia. reflexivity.
  - assert (Hi0 : i = 0%nat) by lia. subst i. cbn. lra.
Qed.

Lemma linspace_negative a b n :
  (n < 0)%Z -> raises (Np.linspace a b n).
Proof.
  intros Hn. unfold Np.linspace.
  destruct (Z.ltb_spec n 0); [exact I | lia].
Qed.

Lemma evenly_spaced_length a b n : length (Table.evenly_spaced a b n) = n.
Proof. unfold Table.evenly_spaced. now rewrite length_map, length_seq. Qed.

Lemma evenly_spaced_nth a b n i :
  (i < n)%nat ->
  nth_error (Table.evenly_spaced a b n) i
  = Some (a + INR i * ((b - a) / (INR n - 1))).
Proof.
  intros Hi. unfold Table.evenly_spaced.
  rewrite nth_error_map, nth_error_nth' with (d := 0%nat)
    by (now rewrite length_seq).
  now rewrite seq_nth.
Qed.

Lemma evenly_spaced_last a b n :
  (2 <= n)%nat -> nth_error (Table.evenly_spaced a b n) (n - 1) = Some b.
Proof.
  intros Hn. rewrite evenly_spaced_nth by lia. f_equal.
  rewrite minus_INR by lia. cbn [INR].
  assert (Hne : INR n - 1 <> 0).
  { apply Rgt_not_eq. apply lt_INR in Hn. cbn [INR] in Hn. lra. }
  field. exact Hne.
Qed.

Lemma evenly_spaced_constant a n : Table.evenly_spaced a a n = repeat a n.
Proof.
  unfold Table.evenly_spaced.
  rewrite (map_ext _ (fun _ : nat => a)).
  - now rewrite map_const, length_seq.
  - intros i. unfold Rdiv. ring.
Qed.

Lemma points_or_grid a b n pts g :
  evaluation_grid a b n pts g ->
  points_or pts (rmap Np.of_reals (Np.linspace a b n)) = Ok g.
Proof.
  intros [pts' | Hn]; cbn; [reflexivity |].
  now rewrite linspace_evenly_spaced.
Qed.

(* ================================================================= *)
(** ** The code's pointwise formulas against the table *)

Lemma poisson_rigidity_at L : Poisson.spectral_rigidity_at L = (L / 30)%f64.
Proof.
  unfold Poisson.spectral_rigidity_at. destruct L as [x | | |].
  - rewrite !div_fin by lra. f_equal. lra.
  - unfold F64.div. repeat (destruct (Rlt_dec _ _); try lra). reflexivity.
  - unfold F64.div. repeat (destruct (Rlt_dec _ _); try lra). reflexivity.
  - reflexivity.
Qed.

(* ================================================================= *)
(** ** Spectral rigidity and level variance follow the table *)

Lemma rigidity_on_grid `{Special} e min_L max_L n L g :
  evaluation_grid (dflt 0.5 min_L) (dflt 20 max_L) (dflt 50%Z n) L g ->
  spectral_rigidity e min_L max_L n L = Ok (map (Table.delta3 e) g).
Proof.
  intros Hg. apply points_or_grid in Hg.
  destruct e;
    unfold spectral_rigidity, Poisson.spectral_rigidity, GOE.spectral_rigidity,
      GUE.spectral_rigidity, GSE.spectral_rigidity;
    cbv zeta; rewrite Hg; cbn [rbind]; try reflexivity.
  f_equal. apply map_ext, poisson_rigidity_at.
Qed.

Lemma variance_on_grid `{Special} e min_L max_L n L g :
  evaluation_grid (dflt 0.5 min_L) (dflt 20 max_L) (dflt 50%Z n) L g ->
  level_variance e min_L max_L n L = Ok (map (Table.sigma2 e) g).
Proof.
  intros Hg. apply points_or_grid in Hg.
  destruct e;
    unfold level_variance, Poisson.level_variance, GOE.level_variance,
      GUE.level_variance, GSE.level_variance;
    cbv zeta; rewrite Hg; reflexivity.
Qed.

(** C1. For each of the four ensembles and for every evaluation grid [g]
    (the explicit [L] when one is supplied, otherwise the evenly spaced grid
    generated from [min_L], [max_L] and [L_grid_size] or their defaults
    0.5, 20 and 50), [spectral_rigidity] and [level_variance] return
    sequences of the length of [g] whose i-th entries are the table's closed
    forms at [g[i]]: in float64 arithmetic at every point, and as the
    real-valued closed forms at every finite positive point (for Poisson,
    [L / 30] and [L / 2], at every finite point). *)
Theorem C1_rigidity_and_variance_follow_table `{Special} (e : ensemble)
    (min_L max_L : option R) (L_grid_size : option Z)
    (L : option (list float64)) (g : list float64) :
  evaluation_grid (dflt 0.5 min_L) (dflt 20 max_L) (dflt 50%Z L_grid_size) L g ->
  exists d3 s2,
    spectral_rigidity e min_L max_L L_grid_size L = Ok d3
    /\ level_variance e min_L max_L L_grid_size L = Ok s2
    /\ length d3 = length g
    /\ length s2 = length g
    /\ (forall i l, nth_error g i = Some l ->
          nth_error d3 i = Some (Table.delta3 e l)
          /\ nth_error s2 i = Some (Table.sigma2 e l))
    /\ (forall i (x : R), nth_error g i = Some (Fin x) -> 0 < x ->
          nth_error d3 i = Some (Fin (Table.delta3_real e x))
          /\ nth_error s2 i = Some (Fin (Table.sigma2_real e x)))
    /\ (forall i (x : R), e = poisson -> nth_error g i = Some (Fin x) ->
          nth_error d3 i = Some (Fin (x / 30))
          /\ nth_error s2 i = Some (Fin (x / 2))).
Proof.
  intros Hg.
  exists (map (Table.delta3 e) g), (map (Table.sigma2 e) g).
  split; [now apply rigidity_on_grid |].
  split; [now apply variance_on_grid |].
  rewrite !length_map. do 2 (split; [reflexivity |]).
  split; [| split].
  - intros i l Hi. rewrite !nth_error_map, Hi. now split.
  - intros i x Hi Hx. rewrite !nth_error_map, Hi. cbn [option_map].
    now rewrite delta3_finite, sigma2_finite.
  - intros i x -> Hi. rewrite !nth_error_map, Hi. cbn [option_map].
    unfold Table.delta3, Table.sigma2. rewrite !div_fin by lra. now split.
Qed.

Lemma C1_witness :
  evaluation_grid (dflt 0.5 None) (dflt 20 None) (dflt 50%Z (Some 3%Z)) None
    (Np.of_reals (Table.evenly_spaced 0.5 20 3))
  /\ exists d3 s2,
      spectral_rigidity (H := nominal_special) goe None None (Some 3%Z) None = Ok d3
      /\ level_variance (H := nominal_special) goe None None (Some 3%Z) None = Ok s2
      /\ length d3 = 3%nat /\ length s2 = 3%nat.
Proof.
  assert (Hg : evaluation_grid (dflt 0.5 None) (dflt 20 None)
                 (dflt 50%Z (Some 3%Z)) None
                 (Np.of_reals (Table.evenly_spaced 0.5 20 3))).
  { apply (grid_generated 0.5 20 3). lia. }
  split; [exact Hg |].
  destruct (C1_rigidity_and_variance_follow_table (H := nominal_special)
              goe None None (Some 3%Z) None _ Hg)
    as (d3 & s2 & Hd & Hs & Ld & Ls & _).
  exists d3, s2. repeat split; assumption.
Defined.

(* ================================================================= *)
(** ** Nearest and next-nearest spacing formulas against the table *)

Lemma nnsd_at_table e s :
  match e with
  | poisson => Poisson.nnsd_at s
  | goe => GOE.nnsd_at s
  | gue => GUE.nnsd_at s
  | gse => GSE.nnsd_at s
  end = Table.nnsd e s.
Proof.
  destruct e; unfold Poisson.nnsd_at, GOE.nnsd_at, GUE.nnsd_at, GSE.nnsd_at,
    Table.nnsd; try reflexivity.
  all: destruct s as [x | | |]; cbv zeta; f64_eval; real_close.
Qed.

Lemma goe_nnnsd_at_table s : GOE.nnnsd_at s = Table.goe_nnnsd s.
Proof.
  unfold GOE.nnnsd_at, Table.goe_nnnsd.
  destruct s as [x | | |]; cbv zeta; f64_eval; real_close.
Qed.

Lemma nnsd_finite e (x : R) : Table.nnsd e (Fin x) = Fin (Table.nnsd_real e x).
Proof.
  destruct e; unfold Table.nnsd, Table.nnsd_real; cbv zeta; f64_eval; real_close.
Qed.

Lemma goe_nnnsd_finite (x : R) :
  Table.goe_nnnsd (Fin x) = Fin (Table.goe_nnnsd_real x).
Proof.
  unfold Table.goe_nnnsd, Table.goe_nnnsd_real; cbv zeta; f64_eval; real_close.
Qed.

Lemma gse_nnsd_is_goe_nnnsd s : GSE.nnsd_at s = GOE.nnnsd_at s.
Proof.
  rewrite goe_nnnsd_at_table.
  change (GSE.nnsd_at s) with (match gse with
                               | poisson => Poisson.nnsd_at s
                               | goe => GOE.nnsd_at s
                               | gue => GUE.nnsd_at s
                               | gse => GSE.nnsd_at s
                               end).
  rewrite nnsd_at_table. reflexivity.
Qed.

(** Values at known points. *)

Example linspace_three_points : Np.linspace 0 4 3 = Ok [0; 2; 4].
Proof.
  rewrite linspace_evenly_spaced by lia.
  change (Z.to_nat 3) with 3%nat.
  unfold Table.evenly_spaced. cbn [seq map INR].
  repeat f_equal; field.
Qed.

Example nnsd_at_zero :
  Poisson.nnsd_at (Fin 0) = Fin 1
  /\ GOE.nnsd_at (Fin 0) = Fin 0
  /\ GUE.nnsd_at (Fin 0) = Fin 0.
Proof.
  unfold Poisson.nnsd_at, GOE.nnsd_at, GUE.nnsd_at. cbv zeta. f64_eval.
  repeat split; f_equal.
  - now rewrite Ropp_0, exp_0.
  - unfold Rdiv. ring.
  - field. fin_side.
Qed.

Example rigidity_at_zero `{Special} :
  GOE.spectral_rigidity_at (Fin 0) = NInf
  /\ Poisson.spectral_rigidity_at (Fin 0) = Fin 0.
Proof.
  unfold GOE.spectral_rigidity_at, Poisson.spectral_rigidity_at. cbv zeta.
  split.
  - unfold F64.pi. rewrite div_fin by fin_side.
    cbn [F64.mul F64.pow]. rewrite Rmult_0_r.
    unfold F64.log. rewrite Rsign_zero.
    rewrite !div_fin by fin_side. cbn [F64.add F64.sub F64.opp].
    rewrite mul_fin_ninf, Rsign_pos by fin_side. reflexivity.
  - rewrite !div_fin by lra. f_equal. field.
Qed.

(* ================================================================= *)
(** ** Explicit points, generated grids and the unimplemented stubs *)

(** C6. Every implemented observable, called with explicit points, returns
    its table formula applied pointwise to those points (NNSD of the four
    ensembles, NNNSD of Poisson and GOE, rigidity and level variance of the
    four ensembles), and the result does not depend on the range and
    point-count arguments. On finite points the NNSD and the GOE NNNSD
    values are the real-valued closed forms. *)
Theorem C6_explicit_points_override `{Special} (e : ensemble)
    (pts : list float64) (r r' : option (R * R))
    (lo lo' hi hi' : option R) (n n' : option Z) :
  (nnsd e r n (Some pts) = Ok (map (Table.nnsd e) pts)
   /\ nnsd e r' n' (Some pts) = nnsd e r n (Some pts))
  /\ (Poisson.nnnsd r n (Some pts) = Ok (map Table.poisson_nnnsd pts)
      /\ Poisson.nnnsd r' n' (Some pts) = Poisson.nnnsd r n (Some pts))
  /\ (GOE.nnnsd r n (Some pts) = Ok (map Table.goe_nnnsd pts)
      /\ GOE.nnnsd r' n' (Some pts) = GOE.nnnsd r n (Some pts))
  /\ (spectral_rigidity e lo hi n (Some pts) = Ok (map (Table.delta3 e) pts)
      /\ spectral_rigidity e lo' hi' n' (Some pts)
         = spectral_rigidity e lo hi n (Some pts))
  /\ (level_variance e lo hi n (Some pts) = Ok (map (Table.sigma2 e) pts)
      /\ level_variance e lo' hi' n' (Some pts)
         = level_variance e lo hi n (Some pts))
  /\ (forall x : R,
        Table.nnsd e (Fin x) = Fin (Table.nnsd_real e x)
        /\ Table.goe_nnnsd (Fin x) = Fin (Table.goe_nnnsd_real x)).
Proof.
  assert (Hn : forall r n, nnsd e r n (Some pts) = Ok (map (Table.nnsd e) pts)).
  { intros r0 n0.
    destruct e; cbn [nnsd]; unfold Poisson.nnsd, GOE.nnsd, GUE.nnsd, GSE.nnsd;
      cbn [points_or rbind]; f_equal; try (apply map_ext; intros s).
    - apply (nnsd_at_table goe).
    - apply (nnsd_at_table gue).
    - apply (nnsd_at_table gse). }
  assert (Hg : forall r n, GOE.nnnsd r n (Some pts) = Ok (map Table.goe_nnnsd pts)).
  { intros r0 n0. unfold GOE.nnnsd; cbn [points_or rbind]. f_equal.
    apply map_ext, goe_nnnsd_at_table. }
  assert (Hd : forall lo hi n,
             spectral_rigidity e lo hi n (Some pts) = Ok (map (Table.delta3 e) pts))
    by (intros; apply rigidity_on_grid; constructor).
  assert (Hs : forall lo hi n,
             level_variance e lo hi n (Some pts) = Ok (map (Table.sigma2 e) pts))
    by (intros; apply variance_on_grid; constructor).
  rewrite !Hn, !Hg, !Hd, !Hs.
  repeat split; auto using nnsd_finite, goe_nnnsd_finite.
Qed.

(** C7. Without explicit spacings, [GSE.nnsd] evaluates its formula (the
    functional form of the GOE NNNSD) on [linspace(range[0], range[0], 10000)]:
    all 10000 values are the formula at [range[0]], whatever [n_points] and
    [range[1]] are, and with the default range every value is 0. *)
Theorem C7_gse_nnsd_constant_grid (spacings_range : option (R * R))
    (n_points : option Z) :
  let s0 := fst (dflt (0, 3) spacings_range) in
  GSE.nnsd spacings_range n_points None
  = Ok (repeat (Fin (Table.nnsd_real gse s0)) (Z.to_nat 10000))
  /\ Table.nnsd_real gse s0
     = (262144 / (729 * PI ^ 3)) * s0 ^ 4 * exp (- (64 / (9 * PI)) * s0 ^ 2)
  /\ (forall s, GSE.nnsd_at s = GOE.nnnsd_at s)
  /\ GSE.nnsd None n_points None = Ok (repeat (Fin 0) (Z.to_nat 10000)).
Proof.
  assert (Hgen : forall r : option (R * R),
             GSE.nnsd r n_points None
             = Ok (repeat (Fin (Table.nnsd_real gse (fst (dflt (0, 3) r))))
                     (Z.to_nat 10000))).
  { intros r. unfold GSE.nnsd. cbv zeta. cbn [points_or].
    rewrite linspace_evenly_spaced by lia.
    rewrite evenly_spaced_constant. cbn [rmap rbind]. f_equal.
    unfold Np.of_reals. rewrite !map_repeat. f_equal.
    change (GSE.nnsd_at ?s) with (match gse with
                                  | poisson => Poisson.nnsd_at s
                                  | goe => GOE.nnsd_at s
                                  | gue => GUE.nnsd_at s
                                  | gse => GSE.nnsd_at s
                                  end).
    now rewrite nnsd_at_table, nnsd_finite. }
  cbv zeta. split; [apply Hgen |]. split; [| split].
  - unfold Table.nnsd_real. f_equal. f_equal. field. fin_side.
  - apply gse_nnsd_is_goe_nnnsd.
  - rewrite Hgen. cbn [dflt fst].
    replace (Table.nnsd_real gse 0) with 0; [reflexivity |].
    unfold Table.nnsd_real. ring.
Qed.

(** C8. The four unimplemented operations fail on every call, whatever the
    other arguments and the state of the world are: [generate_eigs] with
    [kind="uniform"] raises [Exception("UNIMPLEMENTED!")] before drawing or
    printing anything, and [generate_uniform], [GUE.nnnsd] and [GSE.nnnsd]
    raise [NotImplementedError]. *)
Theorem C8_unimplemented_always_fail `{External} (matsize : Z)
    (mean sd : option R) (log : option bool)
    (matsize' : option Z) (lower upper : option R)
    (spacings_range : option (R * R)) (n_points : option Z)
    (spacings : option (list float64)) (w : world) :
  generate_eigs matsize mean sd (Some "uniform"%string) log w
  = (Raise (Exception "UNIMPLEMENTED!"), w)
  /\ generate_uniform matsize' lower upper w = (Raise NotImplementedError, w)
  /\ GUE.nnnsd spacings_range n_points spacings = Raise NotImplementedError
  /\ GSE.nnnsd spacings_range n_points spacings = Raise NotImplementedError.
Proof. repeat split; reflexivity. Qed.

(* ================================================================= *)
(** ** Grids generated from range and point count *)

Lemma goe_nnnsd_real_halved_differs :
  Table.goe_nnnsd_real (4 / 2) <> Table.goe_nnnsd_real 4.
Proof.
  unfold Table.goe_nnnsd_real.
  pose proof PI_RGT_0 as Hpi. pose proof PI_4 as Hpi4.
  set (k := 64 / (9 * PI)).
  set (c := 2 ^ 18 / (3 ^ 6 * PI ^ 3)).
  assert (Hk9 : k * (9 * PI) = 64) by (unfold k; field; lra).
  assert (Hk : 16 / 9 <= k) by nra.
  assert (Hc : 0 < c) by (unfold c; sign_of).
  replace (- k * (4 / 2) ^ 2) with (- (16 * k) + 12 * k) by field.
  replace (- k * 4 ^ 2) with (- (16 * k)) by ring.
  rewrite exp_plus.
  pose proof (exp_pos (- (16 * k))) as HB.
  pose proof (exp_ineq1_le (12 * k)) as HE.
  set (B := exp (- (16 * k))) in *. set (E := exp (12 * k)) in *.
  assert (HcB : 0 < c * B) by (apply Rmult_lt_0_compat; assumption).
  intros Heq.
  assert (Heq' : c * B * (16 * E) = c * B * 256).
  { replace (c * B * (16 * E)) with (c * (4 / 2) ^ 4 * (B * E)) by field.
    rewrite Heq. ring. }
  apply Rmult_eq_reg_l in Heq'; lra.
Qed.

(** C5, as stated, fails: on the range (0, 4) with 2 points [GOE.nnnsd]
    does not evaluate its formula on the grid [0, 4] but on the halved grid
    [0, 2]; and [GUE.nnsd] asked for 5 points returns 10000. *)
Lemma C5_counterexample :
  GOE.nnnsd (Some (0, 4)) (Some 2%Z) None
  <> Ok (map Table.goe_nnnsd (Np.of_reals (Table.evenly_spaced 0 4 2)))
  /\ (exists l, GUE.nnsd (Some (0, 3)) (Some 5%Z) None = Ok l
                 /\ length l = Z.to_nat 10000 /\ length l <> 5%nat).
Proof.
  split.
  - unfold GOE.nnnsd. cbv zeta. cbn [points_or dflt fst snd].
    rewrite linspace_evenly_spaced by lia.
    change (Z.to_nat 2) with 2%nat.
    cbn [rmap rbind Table.evenly_spaced Np.of_reals seq map INR].
    replace (0 + 0 * ((4 - 0) / (1 + 1 - 1))) with 0 by (field; lra).
    replace (0 + 1 * ((4 - 0) / (1 + 1 - 1))) with 4 by (field; lra).
    intros Heq. injection Heq as _ Heq.
    rewrite goe_nnnsd_at_table, div_fin, !goe_nnnsd_finite in Heq by lra.
    injection Heq as Heq. now apply goe_nnnsd_real_halved_differs.
  - unfold GUE.nnsd. cbv zeta. cbn [points_or dflt fst snd].
    rewrite linspace_evenly_spaced by lia. cbn [rmap rbind].
    eexists. split; [reflexivity |].
    unfold Np.of_reals. rewrite !length_map, evenly_spaced_length. lia.
Qed.

(** C5, amended. Called without explicit points and with a point count
    [n >= 0], the following observables return their table formula on the
    evenly spaced grid of exactly [n] points from [min] to [max], with
    defaults range (0, 3) and 1000 points for the Poisson and GOE NNSD,
    range (0, 4) and 1000 points for the Poisson NNNSD, and range (0.5, 20)
    and 50 points for the rigidity and level variance of the four ensembles.
    The grid starts at [min] and, from two points on, ends at [max].
    [GOE.nnnsd] returns its formula on that grid divided by two. *)
Theorem C5_generated_grids `{Special} (e : ensemble)
    (r : option (R * R)) (n : option Z) (rr : R * R)
    (lo hi : option R) (m : option Z) :
  (0 <= dflt 1000 n)%Z ->
  (0 <= dflt 50 m)%Z ->
  let grid (a b : R) (k : Z) :=
    Np.of_reals (Table.evenly_spaced a b (Z.to_nat k)) in
  let r3 := dflt (0, 3) r in
  let r4 := dflt (0, 4) r in
  Poisson.nnsd r n None
  = Ok (map (Table.nnsd poisson) (grid (fst r3) (snd r3) (dflt 1000%Z n)))
  /\ GOE.nnsd r n None
     = Ok (map (Table.nnsd goe) (grid (fst r3) (snd r3) (dflt 1000%Z n)))
  /\ Poisson.nnnsd r n None
     = Ok (map Table.poisson_nnnsd (grid (fst r4) (snd r4) (dflt 1000%Z n)))
  /\ GOE.nnnsd (Some rr) n None
     = Ok (map Table.goe_nnnsd
             (map (fun x : float64 => (x / 2)%f64)
                (grid (fst rr) (snd rr) (dflt 1000%Z n))))
  /\ spectral_rigidity e lo hi m None
     = Ok (map (Table.delta3 e) (grid (dflt 0.5 lo) (dflt 20 hi) (dflt 50%Z m)))
  /\ level_variance e lo hi m None
     = Ok (map (Table.sigma2 e) (grid (dflt 0.5 lo) (dflt 20 hi) (dflt 50%Z m)))
  /\ (forall a b k, (0 <= k)%Z ->
        length (grid a b k) = Z.to_nat k
        /\ (forall i, (i < Z.to_nat k)%nat ->
              nth_error (grid a b k) i
              = Some (Fin (a + INR i * ((b - a) / (INR (Z.to_nat k) - 1)))))
        /\ ((1 <= k)%Z -> nth_error (grid a b k) 0 = Some (Fin a))
        /\ ((2 <= k)%Z -> nth_error (grid a b k) (Z.to_nat k - 1) = Some (Fin b))).
Proof.
  intros Hn Hm grid r3 r4.
  repeat match goal with |- _ /\ _ => split end.
  - unfold Poisson.nnsd. cbv zeta. cbn [points_or].
    now rewrite linspace_evenly_spaced by assumption.
  - unfold GOE.nnsd. cbv zeta. cbn [points_or].
    rewrite linspace_evenly_spaced by assumption. cbn [rmap rbind]. f_equal.
    apply map_ext. intros s. apply (nnsd_at_table goe).
  - unfold Poisson.nnnsd. cbv zeta. cbn [points_or].
    now rewrite linspace_evenly_spaced by assumption.
  - unfold GOE.nnnsd. cbv zeta. cbn [points_or dflt].
    rewrite linspace_evenly_spaced by assumption. cbn [rmap rbind]. f_equal.
    apply map_ext, goe_nnnsd_at_table.
  - apply rigidity_on_grid. now constructor.
  - apply variance_on_grid. now constructor.
  - intros a b k Hk. unfold grid, Np.of_reals.
    split; [| split; [| split]].
    + now rewrite length_map, evenly_spaced_length.
    + intros i Hi. now rewrite nth_error_map, evenly_spaced_nth.
    + intros Hk1. rewrite nth_error_map, evenly_spaced_nth by lia.
      cbn [INR option_map]. do 2 f_equal. ring.
    + intros Hk2. rewrite nth_error_map, evenly_spaced_last by lia. reflexivity.
Qed.

Lemma C5_witness :
  (0 <= dflt 1000 None)%Z /\ (0 <= dflt 50 None)%Z
  /\ Poisson.nnsd None None None
     = Ok (map (Table.nnsd poisson)
             (Np.of_reals (Table.evenly_spaced 0 3 (Z.to_nat 1000))))
  /\ spectral_rigidity (H := nominal_special) gue None None None None
     = Ok (map (Table.delta3 (H := nominal_special) gue)
             (Np.of_reals (Table.evenly_spaced 0.5 20 (Z.to_nat 50)))).
Proof.
  assert (H1 : (0 <= dflt 1000 None)%Z) by (cbn [dflt]; lia).
  assert (H2 : (0 <= dflt 50 None)%Z) by (cbn [dflt]; lia).
  split; [exact H1 |]. split; [exact H2 |].
  destruct (C5_generated_grids (H := nominal_special) gue None None (0, 4)
              None None None H1 H2) as (Hp & _ & _ & _ & Hd & _).
  split; [exact Hp | exact Hd].
Defined.

(* ================================================================= *)
(** ** Shapes of the generated matrices *)

Lemma square_rows {A} n (m : matrix A) row :
  square n m -> In row m -> length row = n.
Proof.
  intros [_ Hrows] Hin. rewrite Forall_forall in Hrows. now apply Hrows.
Qed.

Lemma transpose_square {A} (d : A) n (m : matrix A) :
  square n m -> square n (Arr.transpose d m).
Proof.
  intros Hsq. pose proof Hsq as [Hlen Hrows].
  destruct m as [| row rest]; [exact Hsq |].
  assert (Hrow : length row = n) by (apply (square_rows n (row :: rest)); [easy | now left]).
  unfold Arr.transpose, square. rewrite length_map, length_seq, Hrow.
  split; [reflexivity |].
  apply Forall_forall. intros col Hcol. apply in_map_iff in Hcol.
  destruct Hcol as (j & <- & _). now rewrite length_map.
Qed.

Lemma zip_with_square {A B D} (f : A -> B -> D) n (m1 : matrix A) (m2 : matrix B) :
  square n m1 -> square n m2 -> square n (Arr.zip_with f m1 m2).
Proof.
  intros H1 H2. pose proof H1 as [L1 _]. pose proof H2 as [L2 _].
  unfold Arr.zip_with, square. rewrite length_map, length_combine, L1, L2.
  split; [apply Nat.min_id |].
  apply Forall_forall. intros row Hrow. apply in_map_iff in Hrow.
  destruct Hrow as ([r1 r2] & <- & Hin). cbn [fst snd].
  rewrite length_map, length_combine.
  rewrite (square_rows n m1 r1 H1) by (eapply in_combine_l; eassumption).
  rewrite (square_rows n m2 r2 H2) by (eapply in_combine_r; eassumption).
  apply Nat.min_id.
Qed.

Lemma map_entries_square {A B} (f : A -> B) n (m : matrix A) :
  square n m -> square n (Arr.map_entries f m).
Proof.
  intros [Hlen Hrows]. unfold Arr.map_entries, square.
  rewrite length_map. split; [assumption |].
  rewrite Forall_forall in *. intros row Hrow. apply in_map_iff in Hrow.
  destruct Hrow as (r & <- & Hin). rewrite length_map. now apply Hrows.
Qed.

Lemma draw_run k w :
  Random.draw k w
  = (Ok (map (tape w) (seq 0 k)),
     {| tape := fun i => tape w (i + k)%nat; stdout := stdout w |}).
Proof. reflexivity. Qed.

Lemma standard_normal2_square n w :
  (0 <= n)%Z ->
  exists m w',
    Random.standard_normal2 n n w = (Ok m, w')
    /\ square (Z.to_nat n) m
    /\ stdout w' = stdout w.
Proof.
  intros Hn. unfold Random.standard_normal2.
  destruct (Z.ltb_spec n 0) as [Hneg | _]; [lia |]. cbn [orb].
  unfold bind. rewrite draw_run. cbn [ret].
  eexists _, _. split; [reflexivity |]. split; [| reflexivity].
  set (k := Z.to_nat n). unfold square.
  rewrite length_map, length_seq. split; [reflexivity |].
  apply Forall_forall. intros row Hrow. apply in_map_iff in Hrow.
  destruct Hrow as (r & <- & Hr). apply in_seq in Hr.
  rewrite length_firstn, length_skipn, length_map, length_seq.
  apply Nat.min_l. nia.
Qed.

Lemma generate_GOE_matrix_square `{External} size mean sd w :
  (0 <= size)%Z -> dflt 0 mean = 0 -> dflt 1 sd = 1 ->
  exists m w',
    _generate_GOE_matrix (Some size) mean sd None w = (Ok m, w')
    /\ square (Z.to_nat size) m
    /\ stdout w' = stdout w.
Proof.
  intros Hsize Hmean Hsd. unfold _generate_GOE_matrix. cbv zeta.
  rewrite Hmean, Hsd. cbn [dflt]. unfold Rneqb.
  destruct (Req_dec_T 0 0) as [_ | Hne]; [| now elim Hne].
  destruct (Req_dec_T 1 1) as [_ | Hne]; [| now elim Hne]. cbn [orb].
  destruct (standard_normal2_square size w Hsize) as (m0 & w' & Hm0 & Hsq & Hout).
  unfold bind at 1. cbn [ret]. unfold bind. rewrite Hm0. cbn [ret].
  eexists _, _. split; [reflexivity |]. split; [| exact Hout].
  apply map_entries_square, zip_with_square; [assumption |].
  now apply transpose_square.
Qed.

Lemma generate_eigs_goe `{External} matsize w :
  (0 <= matsize)%Z ->
  exists m w',
    generate_eigs matsize None None (Some "goe"%string) None w
    = (Ok (eigvalsh m), w')
    /\ square (Z.to_nat matsize) m
    /\ stdout w' = stdout w.
Proof.
  intros Hn. unfold generate_eigs. cbv zeta. cbn [dflt String.eqb Ascii.eqb Bool.eqb].
  destruct (generate_GOE_matrix_square matsize (Some 0) (Some 1) w Hn eq_refl eq_refl)
    as (m & w' & Hm & Hsq & Hout).
  unfold bind. rewrite Hm. cbn [ret linalg_eigvalsh].
  eexists _, _. split; [reflexivity |]. now split.
Qed.

(* ================================================================= *)
(** ** Sorting, and an instance of the external interface *)

Lemma sort_ascending l : StronglySorted Rle (Arr.sort l).
Proof.
  unfold Arr.sort.
  assert (Htrans : Relations_1.Transitive (fun x y => is_true (ROrder.leb x y))).
  { intros x y z. unfold ROrder.leb, is_true.
    destruct (Rle_dec x y), (Rle_dec y z), (Rle_dec x z);
      try discriminate; try reflexivity. lra. }
  pose proof (RSort.StronglySorted_sort l Htrans) as Hs.
  induction Hs as [| a l' Hs IH Hall]; constructor; [assumption |].
  rewrite Forall_forall in *. intros x Hx. specialize (Hall x Hx).
  unfold ROrder.leb, is_true in Hall.
  destruct (Rle_dec a x); [assumption | discriminate].
Qed.

Lemma sort_permutation l : Permutation l (Arr.sort l).
Proof. apply RSort.Permuted_sort. Qed.

Lemma sort_length l : length (Arr.sort l) = length l.
Proof. symmetry. apply Permutation_length, sort_permutation. Qed.

Lemma diagonal_sorted_length n (m : matrix R) :
  square n m -> length (Arr.sort (diagonal m)) = n.
Proof.
  intros [Hlen _]. unfold diagonal.
  now rewrite sort_length, length_map, length_seq.
Qed.

Lemma diagonal_complex_sorted_length n (m : matrix C) :
  square n m -> length (Arr.sort (diagonal_complex m)) = n.
Proof.
  intros [Hlen _]. unfold diagonal_complex.
  now rewrite sort_length, length_map, length_seq.
Qed.

(** An instance of [External] that is exact on diagonal matrices: the
    ascending diagonal. It shows the interface is inhabited and lets the
    statements below be run on concrete calls. *)
Definition diagonal_external : External :=
  {| eigvalsh := fun m => Arr.sort (diagonal m);
     eigvalsh_complex := fun m => Arr.sort (diagonal_complex m);
     seeded := fun _ _ => 0;
     strftime := fun _ => "00:00:00"%string;
     uninitialised := fun _ => 0;
     eigvalsh_length := diagonal_sorted_length;
     eigvalsh_ascending := fun _ m _ => sort_ascending (diagonal m);
     eigvalsh_complex_length := diagonal_complex_sorted_length;
     eigvalsh_complex_ascending :=
       fun _ m _ => sort_ascending (diagonal_complex m) |}.

(* ================================================================= *)
(** ** fast_poisson_eigs *)

Lemma set_middle {A} (done rest : list A) (x v : A) :
  Arr.set (length done) v (done ++ x :: rest) = Ok (done ++ v :: rest).
Proof.
  induction done as [| d done IH]; cbn; [reflexivity |].
  now rewrite IH.
Qed.

Lemma set_row_middle {A} (done rest : matrix A) (old row : list A) :
  length row = length old ->
  Arr.set_row (length done) row (done ++ old :: rest)
  = Ok (done ++ row :: rest).
Proof.
  intros Hlen. unfold Arr.set_row.
  rewrite nth_error_app2, Nat.sub_diag by lia. cbn [nth_error].
  rewrite Hlen, Nat.eqb_refl. apply set_middle.
Qed.

Lemma concat_length_uniform {A} (c : nat) (blocks : list (list A)) :
  Forall (fun b => length b = c) blocks ->
  length (concat blocks) = (length blocks * c)%nat.
Proof.
  induction 1 as [| b blocks Hb _ IH]; cbn; [reflexivity |].
  rewrite length_app, IH, Hb. reflexivity.
Qed.

Lemma is_block_length `{External} size b : is_block size b -> length b = size.
Proof. intros (m & Hsq & ->). now apply eigvalsh_length. Qed.

Lemma submatrix_loop `{External} (sub : Z) :
  (0 <= sub)%Z ->
  forall (k : nat) (done rest : matrix R) (w : world),
    length rest = k ->
    Forall (fun r => length r = Z.to_nat sub) rest ->
    exists blocks w',
      for_each (seq (length done) k)
        (fun i eigs_submats =>
           Mx <- _generate_GOE_matrix (Some sub) None None None ;;
           let sub_eigs := eigvalsh Mx in
           lift (Arr.set_row i sub_eigs eigs_submats))
        (done ++ rest) w
      = (Ok (done ++ blocks), w')
      /\ length blocks = k
      /\ Forall (is_block (Z.to_nat sub)) blocks
      /\ stdout w' = stdout w.
Proof.
  intros Hsub k. induction k as [| k IH]; intros done rest w Hlen Hrows.
  - destruct rest; [| discriminate]. exists [], w. cbn. repeat split. constructor.
  - destruct rest as [| old rest]; [discriminate |].
    injection Hlen as Hlen. inversion Hrows as [| ? ? Hold Hrest]; subst.
    destruct (generate_GOE_matrix_square sub None None w Hsub eq_refl eq_refl)
      as (m & w1 & Hm & Hsq & Hout1).
    assert (Hb : is_block (Z.to_nat sub) (eigvalsh m)) by (now exists m).
    cbn [seq for_each]. unfold bind at 1. unfold bind at 1. rewrite Hm.
    unfold lift at 1.
    rewrite set_row_middle by (rewrite Hold; now apply is_block_length).
    specialize (IH (done ++ [eigvalsh m]) rest w1 eq_refl Hrest).
    rewrite length_app, Nat.add_1_r, <- app_assoc in IH. cbn [app] in IH.
    destruct IH as (blocks & w' & Hrun & Hk & Hblocks & Hout).
    exists (eigvalsh m :: blocks), w'.
    rewrite Hrun, <- app_assoc. cbn [app length].
    repeat split; [lia | now constructor | congruence].
Qed.

Lemma empty2_rows `{External} rows cols :
  (0 <= rows)%Z -> (0 <= cols)%Z ->
  exists a,
    Arr.empty2 rows cols = Ok a
    /\ length a = Z.to_nat rows
    /\ Forall (fun r => length r = Z.to_nat cols) a.
Proof.
  intros Hr Hc. unfold Arr.empty2.
  destruct (Z.ltb_spec rows 0); [lia |].
  destruct (Z.ltb_spec cols 0); [lia |]. cbn [orb].
  eexists. split; [reflexivity |].
  rewrite length_map, length_seq. split; [reflexivity |].
  apply Forall_forall. intros row Hrow. apply in_map_iff in Hrow.
  destruct Hrow as (r & <- & _). now rewrite length_map, length_seq.
Qed.

(** C3. For [matsize >= 100] and [1 <= sub_matsize < matsize],
    [fast_poisson_eigs] returns a non-decreasing sequence of exactly
    [matsize] eigenvalues: the ascending arrangement of
    [floor(matsize / sub_matsize)] sub-blocks of [sub_matsize] eigenvalues
    each followed by one remainder block of [matsize mod sub_matsize]
    eigenvalues (empty when [sub_matsize] divides [matsize]); each block is
    the spectrum of one generated square matrix. *)
Theorem C3_fast_poisson_eigs_blocks `{External} (matsize sub_matsize : Z)
    (w : world) :
  (100 <= matsize)%Z ->
  (1 <= sub_matsize < matsize)%Z ->
  exists blocks remain eigs w',
    fast_poisson_eigs (Some matsize) (Some sub_matsize) w = (Ok eigs, w')
    /\ length eigs = Z.to_nat matsize
    /\ StronglySorted Rle eigs
    /\ eigs = Arr.sort (concat blocks ++ remain)
    /\ Permutation (concat blocks ++ remain) eigs
    /\ length blocks = Z.to_nat (matsize / sub_matsize)
    /\ Forall (is_block (Z.to_nat sub_matsize)) blocks
    /\ Forall (fun b => length b = Z.to_nat sub_matsize) blocks
    /\ is_block (Z.to_nat (matsize mod sub_matsize)) remain
    /\ length remain = Z.to_nat (matsize mod sub_matsize).
Proof.
  intros Hmat Hsub. unfold fast_poisson_eigs. cbv zeta. cbn [dflt].
  destruct (Z.ltb_spec matsize 100) as [Hlt | _]; [lia |].
  destruct (Z.geb_spec sub_matsize matsize) as [Hge | _]; [lia |].
  unfold int_truediv.
  destruct (Z.eqb_spec sub_matsize 0) as [H0 | _]; [lia |].
  rewrite Z.quot_div_nonneg by lia.
  assert (Hq : (0 <= matsize / sub_matsize)%Z) by (apply Z.div_pos; lia).
  assert (Hr : (0 <= matsize mod sub_matsize < sub_matsize)%Z)
    by (apply Z.mod_pos_bound; lia).
  destruct (empty2_rows (matsize / sub_matsize) sub_matsize Hq ltac:(lia))
    as (a & Ha & Hlen & Hrows).
  destruct (submatrix_loop sub_matsize ltac:(lia) (Z.to_nat (matsize / sub_matsize))
              [] a w Hlen Hrows)
    as (blocks & w1 & Hloop & Hk & Hblocks & _).
  destruct (generate_GOE_matrix_square (matsize mod sub_matsize) None None w1
              ltac:(lia) eq_refl eq_refl)
    as (mr & w2 & Hmr & Hsq & _).
  unfold bind at 1. unfold lift at 1. unfold bind at 1. unfold lift at 1.
  rewrite Ha. unfold bind at 1. unfold for_range.
  cbn [length app] in Hloop. rewrite Hloop.
  unfold bind at 1. rewrite Hmr. cbn [ret].
  assert (Hlens : Forall (fun b => length b = Z.to_nat sub_matsize) blocks).
  { eapply Forall_impl; [| exact Hblocks]. intros b. apply is_block_length. }
  assert (Hrem : is_block (Z.to_nat (matsize mod sub_matsize)) (eigvalsh mr))
    by (now exists mr).
  exists blocks, (eigvalsh mr), (Arr.sort (concat blocks ++ eigvalsh mr)), w2.
  unfold Arr.flatten.
  split; [reflexivity |].
  split.
  { rewrite sort_length, length_app, (concat_length_uniform _ _ Hlens), Hk,
      (is_block_length _ _ Hrem).
    rewrite (Z.div_mod matsize sub_matsize) at 3 by lia.
    rewrite Z2Nat.inj_add, Z2Nat.inj_mul by lia. lia. }
  split; [apply sort_ascending |].
  split; [reflexivity |].
  split; [apply sort_permutation |].
  split; [exact Hk |].
  split; [exact Hblocks |].
  split; [exact Hlens |].
  split; [exact Hrem | now apply is_block_length].
Qed.

Lemma C3_witness :
  (100 <= 1024)%Z /\ (1 <= 100 < 1024)%Z
  /\ exists (blocks : list (list R)) (remain eigs : list R) (w' : world),
      fast_poisson_eigs (H := diagonal_external) (Some 1024%Z) (Some 100%Z)
        quiet_world = (Ok eigs, w')
      /\ length eigs = Z.to_nat 1024
      /\ StronglySorted Rle eigs
      /\ length blocks = Z.to_nat (1024 / 100)
      /\ length remain = Z.to_nat (1024 mod 100).
Proof.
  assert (H1 : (100 <= 1024)%Z) by lia.
  assert (H2 : (1 <= 100 < 1024)%Z) by lia.
  split; [exact H1 |]. split; [exact H2 |].
  destruct (C3_fast_poisson_eigs_blocks (H := diagonal_external) 1024 100
              quiet_world H1 H2)
    as (blocks & remain & eigs & w' & Hrun & Hlen & Hsorted & _ & _ & Hb & _ & _
        & _ & Hr).
  exists blocks, remain, eigs, w'. repeat split; assumption.
Defined.

(** C4, as stated, fails: [fast_poisson_eigs(50, 100)] has a sub-matrix
    size that is not smaller than the target size, yet it does not fail,
    whatever the eigenvalue routine and the state of the generator are: the
    target size is below 100, so the call returns 50 eigenvalues. *)
Lemma C4_counterexample :
  ~ (exists (E : External) (w : world),
        raises (fst (fast_poisson_eigs (Some 50%Z) (Some 100%Z) w)))
  /\ exists eigs w',
       fast_poisson_eigs (H := diagonal_external) (Some 50%Z) (Some 100%Z)
         quiet_world = (Ok eigs, w')
       /\ length eigs = 50%nat.
Proof.
  assert (Hrun : forall (E : External) (w : world),
             exists eigs w',
               fast_poisson_eigs (Some 50%Z) (Some 100%Z) w = (Ok eigs, w')
               /\ length eigs = 50%nat).
  { intros E w. unfold fast_poisson_eigs. cbv zeta. cbn [dflt].
    change (50 <? 100)%Z with true. cbv iota.
    destruct (generate_eigs_goe 50 w ltac:(lia)) as (m & w' & Hrun & Hsq & _).
    exists (eigvalsh m), w'. split; [exact Hrun |].
    now rewrite (eigvalsh_length _ _ Hsq). }
  split.
  - intros (E & w & Hraise).
    destruct (Hrun E w) as (eigs & w' & Heq & _).
    rewrite Heq in Hraise. exact Hraise.
  - apply Hrun.
Qed.

(** C4, amended. When [matsize >= 100] and [sub_matsize >= matsize] the
    call raises [ValueError] and leaves the world untouched. When
    [0 <= matsize < 100] the call is [generate_eigs(matsize, kind="goe")]
    whatever [sub_matsize] is (given or left out, smaller than [matsize] or
    not), and returns [matsize] ascending eigenvalues. *)
Theorem C4_submatrix_size_check `{External} (matsize small sub_matsize : Z)
    (any_sub : option Z) (w : world) :
  (100 <= matsize)%Z ->
  (sub_matsize >= matsize)%Z ->
  (0 <= small < 100)%Z ->
  fast_poisson_eigs (Some matsize) (Some sub_matsize) w
  = (Raise (ValueError "Submatrices must be smaller in order to speed calculation."), w)
  /\ fast_poisson_eigs (Some small) any_sub w
     = generate_eigs small None None (Some "goe"%string) None w
  /\ exists eigs w',
       fast_poisson_eigs (Some small) any_sub w = (Ok eigs, w')
       /\ length eigs = Z.to_nat small
       /\ StronglySorted Rle eigs.
Proof.
  intros Hmat Hsub Hsmall.
  assert (Hfall : fast_poisson_eigs (Some small) any_sub w
                  = generate_eigs small None None (Some "goe"%string) None w).
  { unfold fast_poisson_eigs. cbv zeta. cbn [dflt].
    destruct (Z.ltb_spec small 100); [reflexivity | lia]. }
  split; [| split; [exact Hfall |]].
  - unfold fast_poisson_eigs. cbv zeta. cbn [dflt].
    destruct (Z.ltb_spec matsize 100); [lia |].
    destruct (Z.geb_spec sub_matsize matsize); [reflexivity | lia].
  - rewrite Hfall.
    destruct (generate_eigs_goe small w ltac:(lia)) as (m & w' & Hrun & Hsq & _).
    exists (eigvalsh m), w'. split; [exact Hrun |].
    split; [now apply eigvalsh_length | now apply eigvalsh_ascending with (Z.to_nat small)].
Qed.

Lemma C4_witness :
  (100 <= 100)%Z /\ (200 >= 100)%Z /\ (0 <= 50 < 100)%Z
  /\ fast_poisson_eigs (H := diagonal_external) (Some 100%Z) (Some 200%Z)
       quiet_world
     = (Raise (ValueError "Submatrices must be smaller in order to speed calculation."),
        quiet_world)
  /\ fast_poisson_eigs (H := diagonal_external) (Some 50%Z) (Some 10%Z)
       quiet_world
     = generate_eigs (H := diagonal_external) 50 None None (Some "goe"%string)
         None quiet_world.
Proof.
  assert (H1 : (100 <= 100)%Z) by lia.
  assert (H2 : (200 >= 100)%Z) by lia.
  assert (H3 : (0 <= 50 < 100)%Z) by lia.
  split; [exact H1 |]. split; [exact H2 |]. split; [exact H3 |].
  destruct (C4_submatrix_size_check (H := diagonal_external) 100 50 200
              (Some 10%Z) quiet_world H1 H2 H3) as (Hraise & Hfall & _).
  split; [exact Hraise | exact Hfall].
Defined.

(* ================================================================= *)
(** ** The closed form of goe_unfolded *)

Lemma sincos_bound t : 0 <= t < PI / 2 -> 0 <= sin t * cos t + t <= PI / 2.
Proof.
  intros [H0 H1]. pose proof PI_RGT_0 as Hpi.
  assert (Hs : 0 <= sin t) by (apply sin_ge_0; lra).
  assert (Hc : 0 <= cos t) by (apply cos_ge_0; lra).
  assert (Hs1 : sin t <= 1) by apply SIN_bound.
  assert (Hc1 : cos t < PI / 2 - t).
  { rewrite <- sin_shift. apply sin_lt_x. lra. }
  split; nra.
Qed.

Lemma sincos_bound_abs t :
  - (PI / 2) < t < PI / 2 -> - (PI / 2) <= sin t * cos t + t <= PI / 2.
Proof.
  intros [H0 H1]. destruct (Rle_lt_dec 0 t) as [Hpos | Hneg].
  - pose proof (sincos_bound t (conj Hpos H1)). lra.
  - pose proof (sincos_bound (- t) ltac:(lra)) as Hb.
    rewrite sin_neg, cos_neg in Hb. lra.
Qed.

Lemma interior_as_angle n e :
  0 < n -> e ^ 2 < 4 * n ->
  let d := sqrt (4 * n - e ^ 2) in
  let t := atan (e / d) in
  (e / (4 * n * PI)) * d = sin t * cos t / PI.
Proof.
  intros Hn He d t. pose proof PI_RGT_0 as Hpi.
  assert (Hd : 0 < d) by (apply sqrt_lt_R0; lra).
  assert (Hd2 : d * d = 4 * n - e ^ 2) by (apply sqrt_sqrt; lra).
  unfold t. rewrite sin_atan, cos_atan.
  set (q := sqrt (1 + (e / d)²)).
  assert (Hq2 : q * q = 1 + (e / d)²).
  { apply sqrt_sqrt. pose proof (Rle_0_sqr (e / d)). lra. }
  assert (Hq : 0 < q).
  { apply sqrt_lt_R0. pose proof (Rle_0_sqr (e / d)). lra. }
  assert (Hqd : q * q * (d * d) = 4 * n).
  { rewrite Hq2. unfold Rsqr. field_simplify; [| lra]. nra. }
  clearbody d. rewrite <- Hqd. field. repeat split; lra.
Qed.

Lemma interior_bounds n e :
  0 < n -> e ^ 2 < 4 * n ->
  0 <= 1 / 2 + (e / (4 * n * PI)) * sqrt (4 * n - e ^ 2)
       + (1 / PI) * atan (e / sqrt (4 * n - e ^ 2)) <= 1.
Proof.
  intros Hn He. pose proof PI_RGT_0 as Hpi.
  rewrite (interior_as_angle n e Hn He).
  set (t := atan (e / sqrt (4 * n - e ^ 2))).
  assert (Ht : - (PI / 2) < t < PI / 2)
    by (pose proof (atan_bound (e / sqrt (4 * n - e ^ 2))); unfold t; lra).
  pose proof (sincos_bound_abs t Ht) as Hb.
  replace (1 / 2 + sin t * cos t / PI + 1 / PI * t)
    with (1 / 2 + (sin t * cos t + t) / PI) by (field; lra).
  assert (Hlo : - (1 / 2) <= (sin t * cos t + t) / PI).
  { apply Rmult_le_reg_r with PI; [lra |]. field_simplify; lra. }
  assert (Hhi : (sin t * cos t + t) / PI <= 1 / 2).
  { apply Rmult_le_reg_r with PI; [lra |]. field_simplify; lra. }
  lra.
Qed.

Lemma within_radius n e :
  0 <= n -> Rabs e <= 2 * sqrt n -> e ^ 2 <= 4 * n.
Proof.
  intros Hn He.
  assert (Hs : sqrt n * sqrt n = n) by now apply sqrt_sqrt.
  pose proof (sqrt_pos n) as Hs0.
  unfold Rabs in He. destruct (Rcase_abs e); nra.
Qed.

Lemma unfolded_unscaled_interior n e :
  0 < n -> Rabs e < 2 * sqrt n ->
  Table.unfolded_unscaled n e
  = 1 / 2 + (e / (4 * n * PI)) * sqrt (4 * n - e ^ 2)
    + (1 / PI) * atan (e / sqrt (4 * n - e ^ 2)).
Proof.
  intros Hn He. unfold Table.unfolded_unscaled, Table.arctan_ratio.
  destruct (Rle_dec (Rabs e) (2 * sqrt n)) as [_ | Hgt]; [| lra].
  destruct (Req_dec_T (sqrt (4 * n - e ^ 2)) 0) as [Hd | _]; [| reflexivity].
  exfalso.
  assert (Hs : sqrt n * sqrt n = n) by (apply sqrt_sqrt; lra).
  pose proof (sqrt_pos n) as Hs0.
  assert (Hlt : e ^ 2 < 4 * n)
    by (unfold Rabs in He; destruct (Rcase_abs e); nra).
  apply sqrt_eq_0 in Hd; lra.
Qed.

Lemma unfolded_unscaled_below n e :
  0 < n -> e < - (2 * sqrt n) -> Table.unfolded_unscaled n e = 0.
Proof.
  intros Hn He. unfold Table.unfolded_unscaled.
  pose proof (sqrt_pos n) as Hs0.
  destruct (Rle_dec (Rabs e) (2 * sqrt n)) as [Hle | _].
  - unfold Rabs in Hle. destruct (Rcase_abs e); lra.
  - destruct (Rlt_dec e (- (2 * sqrt n))); [reflexivity | lra].
Qed.

Lemma unfolded_unscaled_above n e :
  0 < n -> 2 * sqrt n < e -> Table.unfolded_unscaled n e = 1.
Proof.
  intros Hn He. unfold Table.unfolded_unscaled.
  pose proof (sqrt_pos n) as Hs0.
  destruct (Rle_dec (Rabs e) (2 * sqrt n)) as [Hle | _].
  - unfold Rabs in Hle. destruct (Rcase_abs e); lra.
  - destruct (Rlt_dec e (- (2 * sqrt n))); [lra | reflexivity].
Qed.

Lemma unfolded_unscaled_range n e :
  0 < n -> 0 <= Table.unfolded_unscaled n e <= 1.
Proof.
  intros Hn. pose proof PI_RGT_0 as Hpi.
  destruct (Rlt_le_dec (Rabs e) (2 * sqrt n)) as [Hin | Hout].
  - rewrite unfolded_unscaled_interior by assumption.
    apply interior_bounds; [assumption |].
    assert (Hs : sqrt n * sqrt n = n) by (apply sqrt_sqrt; lra).
    pose proof (sqrt_pos n) as Hs0.
    unfold Rabs in Hin. destruct (Rcase_abs e); nra.
  - unfold Table.unfolded_unscaled, Table.arctan_ratio.
    destruct (Rle_dec (Rabs e) (2 * sqrt n)) as [Hle | Hgt].
    + assert (Heq : Rabs e = 2 * sqrt n) by lra.
      assert (Hs : sqrt n * sqrt n = n) by (apply sqrt_sqrt; lra).
      assert (He2 : 4 * n - e ^ 2 = 0)
        by (unfold Rabs in Heq; destruct (Rcase_abs e); nra).
      rewrite He2, sqrt_0.
      destruct (Req_dec_T 0 0) as [_ | Hne]; [| now elim Hne].
      destruct (Rlt_dec 0 e).
      * replace (1 / 2 + e / (4 * n * PI) * 0 + 1 / PI * (PI / 2)) with 1
          by (field; lra). lra.
      * replace (1 / 2 + e / (4 * n * PI) * 0 + 1 / PI * - (PI / 2)) with 0
          by (field; lra). lra.
    + destruct (Rlt_dec e (- (2 * sqrt n))); lra.
Qed.

Lemma explicit_finite (N : Z) (e : R) :
  (1 <= N)%Z ->
  explicit N (Fin e) = Ok (Fin (Table.unfolded_unscaled (IZR N) e)).
Proof.
  intros HN. assert (Hn : 1 <= IZR N) by now apply IZR_le.
  set (n := IZR N) in *. pose proof PI_RGT_0 as Hpi.
  pose proof (sqrt_pos n) as Hs0.
  unfold explicit, Table.unfolded_unscaled. cbv zeta. fold n.
  unfold F64.of_Z. fold n.
  rewrite (sqrt_nonneg n) by lra.
  cbn [F64.abs F64.mul F64.opp].
  unfold F64.leb, F64.ltb.
  destruct (Rle_dec (Rabs e) (2 * sqrt n)) as [Hle | Hgt].
  - f_equal.
    pose proof (within_radius n e ltac:(lra) Hle) as He2.
    cbn [F64.sub F64.add F64.opp F64.mul].
    replace (4 * n + - (e * e)) with (4 * n - e ^ 2) by ring.
    rewrite sqrt_nonneg by lra.
    unfold F64.pi. cbn [F64.mul].
    rewrite !div_fin by nra.
    unfold Table.arctan_ratio.
    destruct (Req_dec_T (sqrt (4 * n - e ^ 2)) 0) as [Hd | Hd].
    + rewrite Hd.
      assert (He0 : e <> 0).
      { apply sqrt_eq_0 in Hd; [| lra]. intros ->. nra. }
      destruct (Rlt_dec 0 e) as [Hpos | Hneg].
      * rewrite div_fin_zero_pos by assumption.
        cbn [F64.arctan F64.add F64.mul]. f_equal. lra.
      * rewrite div_fin_zero_neg by lra.
        cbn [F64.arctan F64.add F64.mul]. f_equal. lra.
    + rewrite div_fin by assumption.
      cbn [F64.arctan F64.add F64.mul]. f_equal. lra.
  - replace (-2 * sqrt n) with (- (2 * sqrt n)) by ring.
    destruct (Rlt_dec e (- (2 * sqrt n))) as [Hlo | Hnlo]; [reflexivity |].
    destruct (Rlt_dec (2 * sqrt n) e) as [Hhi | Hnhi]; [reflexivity |].
    exfalso. apply Hgt. unfold Rabs. destruct (Rcase_abs e); lra.
Qed.

Example explicit_at_the_edges :
  explicit 1 (Fin 2) = Ok (Fin 1) /\ explicit 1 (Fin (- 2)) = Ok (Fin 0).
Proof.
  rewrite !explicit_finite by lia.
  unfold Table.unfolded_unscaled, Table.arctan_ratio.
  rewrite sqrt_1, (Rabs_pos_eq 2) by lra.
  replace (Rabs (- 2)) with 2 by (unfold Rabs; destruct (Rcase_abs (- 2)); lra).
  destruct (Rle_dec 2 (2 * 1)) as [_ | Hn]; [| lra].
  replace (4 * 1 - 2 ^ 2) with 0 by ring.
  replace (4 * 1 - (- 2) ^ 2) with 0 by ring.
  rewrite sqrt_0. pose proof PI_RGT_0.
  destruct (Req_dec_T 0 0) as [_ | Hn]; [| now elim Hn].
  destruct (Rlt_dec 0 2) as [_ | Hn]; [| lra].
  destruct (Rlt_dec 0 (- 2)) as [Hn | _]; [lra |].
  split; do 2 f_equal; field; lra.
Qed.

Example explicit_of_nan :
  explicit 1 NaN = Raise (ValueError "Unreachable!").
Proof.
  unfold explicit, F64.of_Z. cbv zeta. rewrite sqrt_nonneg by lra. reflexivity.
Qed.

Example blocks_of_1024 :
  int_truediv 1024 100 = Ok 10%Z /\ (1024 mod 100 = 24)%Z.
Proof. split; reflexivity. Qed.

Lemma get_middle (prefix rest : list R) (e : R) :
  Arr.get (length prefix) (Np.of_reals (prefix ++ e :: rest)) = Ok (Fin e).
Proof.
  unfold Arr.get, Np.of_reals.
  rewrite nth_error_map, nth_error_app2, Nat.sub_diag by lia. reflexivity.
Qed.

Lemma unfolding_loop (N : Z) :
  (1 <= N)%Z ->
  forall (todo prefix : list R) (done rest : list float64) (w : world),
    length prefix = length done ->
    length rest = length todo ->
    for_each (seq (length done) (length todo))
      (fun i unfolded =>
         E <- lift (Arr.get i (Np.of_reals (prefix ++ todo))) ;;
         v <- lift (explicit N E) ;;
         lift (Arr.set i (F64.of_Z N * v)%f64 unfolded))
      (done ++ rest) w
    = (Ok (done ++ Np.of_reals
                     (map (fun E => IZR N * Table.unfolded_unscaled (IZR N) E) todo)),
       w).
Proof.
  intros HN todo. unfold F64.of_Z.
  induction todo as [| e todo IH]; intros prefix done rest w Hpre Hlen.
  - destruct rest; [reflexivity | discriminate].
  - destruct rest as [| r rest]; [discriminate |]. injection Hlen as Hlen.
    cbn [length seq for_each map].
    unfold bind at 1. unfold bind at 1. unfold lift at 1.
    rewrite <- Hpre, get_middle.
    unfold bind at 1. unfold lift at 1. rewrite explicit_finite by assumption.
    unfold lift at 1. rewrite Hpre, set_middle. cbn [F64.mul].
    specialize (IH (prefix ++ [e])
                  (done ++ [Fin (IZR N * Table.unfolded_unscaled (IZR N) e)])
                  rest w).
    rewrite !length_app, <- !app_assoc in IH. cbn [length app] in IH.
    rewrite !Nat.add_1_r in IH.
    rewrite IH by congruence. reflexivity.
Qed.

Lemma goe_unfolded_run `{External} (N : Z) (w : world) :
  (1 <= N)%Z ->
  exists m w',
    _generate_GOE_matrix (Some N) (Some 0) (Some 1) None w = (Ok m, w')
    /\ square (Z.to_nat N) m
    /\ goe_unfolded N w
       = (Ok (Unfolded.__init__
                (Np.of_reals (eigvalsh m))
                (Np.of_reals
                   (map (fun E => IZR N * Table.unfolded_unscaled (IZR N) E)
                      (eigvalsh m)))),
          w').
Proof.
  intros HN.
  destruct (generate_GOE_matrix_square N (Some 0) (Some 1) w ltac:(lia)
              eq_refl eq_refl) as (m & w' & Hm & Hsq & _).
  exists m, w'. split; [exact Hm |]. split; [exact Hsq |].
  pose proof (eigvalsh_length _ _ Hsq) as Hlen.
  unfold goe_unfolded. cbv zeta. unfold bind at 1. rewrite Hm.
  unfold Arr.empty. destruct (Z.ltb_spec N 0); [lia |].
  unfold bind at 1. cbn [rmap rbind lift]. unfold bind at 1.
  unfold for_range. rewrite <- Hlen.
  pose proof (unfolding_loop N HN (eigvalsh m) [] []
                (Np.of_reals (map uninitialised (seq 0 (length (eigvalsh m)))))
                w' eq_refl) as Hloop.
  cbn [app length] in Hloop. unfold F64.of_Z in Hloop.
  unfold F64.of_Z. rewrite Hloop; [reflexivity |].
  unfold Np.of_reals. now rewrite !length_map, length_seq.
Qed.

(** In exact arithmetic, for every positive [N], [goe_unfolded(N)] returns
    an [Unfolded] object whose originals are the [N] ascending eigenvalues of
    one generated GOE matrix and whose i-th unfolded value is [N] times the
    unscaled closed form at the i-th eigenvalue; every such value lies in
    [[0, N]], and an eigenvalue with [|E| > 2 sqrt(N)] maps to exactly 0 or
    exactly [N].  This is what the code aims at; rounding is left out here
    and taken up in the theorem that follows. *)
Lemma goe_unfolded_in_exact_arithmetic `{External} (N : Z) (w : world) :
  (1 <= N)%Z ->
  exists m u w',
    _generate_GOE_matrix (Some N) (Some 0) (Some 1) None w = (Ok m, w')
    /\ square (Z.to_nat N) m
    /\ goe_unfolded N w = (Ok u, w')
    /\ Unfolded.originals u = Np.of_reals (eigvalsh m)
    /\ Unfolded.values u
       = Np.of_reals
           (map (fun E => IZR N * Table.unfolded_unscaled (IZR N) E)
              (eigvalsh m))
    /\ length (eigvalsh m) = Z.to_nat N
    /\ StronglySorted Rle (eigvalsh m)
    /\ forall E : R,
         let v := Table.unfolded_unscaled (IZR N) E in
         0 <= IZR N * v <= IZR N
         /\ (E < - (2 * sqrt (IZR N)) -> v = 0)
         /\ (2 * sqrt (IZR N) < E -> v = 1).
Proof.
  intros HN. assert (Hn : 1 <= IZR N) by now apply IZR_le.
  destruct (goe_unfolded_run N w HN) as (m & w' & Hm & Hsq & Hrun).
  eexists m, _, w'.
  split; [exact Hm |]. split; [exact Hsq |]. split; [exact Hrun |].
  split; [reflexivity |]. split; [reflexivity |].
  split; [now apply eigvalsh_length |].
  split; [now apply eigvalsh_ascending with (Z.to_nat N) |].
  intros E v. pose proof (unfolded_unscaled_range (IZR N) E ltac:(lra)) as Hv.
  fold v in Hv.
  split; [nra |].
  split; [intros HE; apply unfolded_unscaled_below; lra |].
  intros HE; apply unfolded_unscaled_above; lra.
Qed.

(** C2. The code breaks the claim at the edge of its guard.  In binary64,
    with [N = 2] and the eigenvalue [E = 2.8284271247461903] (the float
    [2 * np.sqrt(2)]), the guard [np.abs(E) <= 2 * np.sqrt(N)] holds, but
    [E * E] rounds above 8, so [4 * N - E * E] is negative and its square
    root is [nan]: [explicit] returns [nan] whatever [np.arctan] computes,
    and the value [goe_unfolded] stores for that eigenvalue, [N * nan], is
    [nan], which is not in [[0, N]]. *)
Theorem C2_nan_at_the_rounded_edge `{Libm} :
  let E := Binary64.edge_of_two in
  PrimFloat.leb (PrimFloat.abs E)
    (2 * PrimFloat.sqrt (Binary64.of_int 2))%float = true
  /\ PrimFloat.ltb (Binary64.of_int (4 * 2) - E * E)%float 0%float = true
  /\ Binary64.explicit 2 E = Ok PrimFloat.nan
  /\ Binary64.unfolded_entry 2 E = Ok PrimFloat.nan
  /\ PrimFloat.leb 0%float PrimFloat.nan = false
  /\ PrimFloat.leb PrimFloat.nan (Binary64.of_int 2) = false.
Proof.
  cbv zeta.
  repeat match goal with |- _ /\ _ => split end; vm_compute; reflexivity.
Qed.

(* ================================================================= *)
(** ** The Unfolded container *)

(** C9, as stated, fails: the constructor accepts three originals with one
    unfolded value and stores both, so the two sequences of the object
    differ in length. *)
Lemma C9_counterexample :
  let u := Unfolded.__init__ [Fin 1; Fin 2; Fin 3] [Fin 1] in
  length (Unfolded.originals u) = 3%nat
  /\ length (Unfolded.values u) = 1%nat
  /\ length (Unfolded.originals u) <> length (Unfolded.values u).
Proof. cbn. repeat split. discriminate. Qed.

(** C9, amended. The constructor checks nothing and stores the two
    sequences it is given, so [len(originals) == len(unfolded)] holds for an
    [Unfolded] object exactly when it holds for the constructor's
    arguments; it holds, with both lengths [N], for every object returned by
    [goe_unfolded(N)]. *)
Theorem C9_unfolded_lengths `{External} (originals unfolded : list float64)
    (N : Z) (w : world) :
  (1 <= N)%Z ->
  let u := Unfolded.__init__ originals unfolded in
  Unfolded.originals u = originals
  /\ Unfolded.values u = unfolded
  /\ (length (Unfolded.originals u) = length (Unfolded.values u)
      <-> length originals = length unfolded)
  /\ exists g w',
       goe_unfolded N w = (Ok g, w')
       /\ length (Unfolded.originals g) = Z.to_nat N
       /\ length (Unfolded.values g) = Z.to_nat N.
Proof.
  intros HN u. split; [reflexivity |]. split; [reflexivity |].
  split; [reflexivity |].
  destruct (goe_unfolded_run N w HN) as (m & w' & _ & Hsq & Hrun).
  pose proof (eigvalsh_length _ _ Hsq) as Hlen.
  eexists _, w'. split; [exact Hrun |].
  unfold Unfolded.originals, Unfolded.values, Unfolded.__init__, Np.array,
    Np.of_reals.
  cbn [Unfolded.super Unfolded._vals EigVals.originals EigVals.__init__].
  rewrite !length_map. split; exact Hlen.
Qed.

Lemma C9_witness :
  (1 <= 2)%Z
  /\ exists g w',
      goe_unfolded (H := diagonal_external) 2 quiet_world = (Ok g, w')
      /\ length (Unfolded.originals g) = length (Unfolded.values g).
Proof.
  assert (H2 : (1 <= 2)%Z) by lia.
  split; [exact H2 |].
  destruct (C9_unfolded_lengths (H := diagonal_external) [] [] 2 quiet_world H2)
    as (_ & _ & _ & g & w' & Hrun & Ho & Hv).
  exists g, w'. split; [exact Hrun | congruence].
Defined.

(** C10. For every [Unfolded(originals, unfolded)] object, [values] and
    [vals] both return the unfolded sequence; [plot_spectral_rigidity] and
    [plot_level_variance] hand exactly that sequence to the estimator and to
    the renderer, and their whole outcome (the [L] grid, the statistic, the
    plot handle, the error if any, and the world left behind) is the same
    for two objects that share the unfolded sequence, whatever their
    originals are. *)
Theorem C10_plots_depend_on_unfolded_only `{Analysis}
    (originals originals' unfolded : list float64)
    (min_L max_L : option R) (L_grid_size c_iters : option Z)
    (title mode outfile : option string) (ensembles : option (list string))
    (show_progress : option bool) (w : world) :
  let u := Unfolded.__init__ originals unfolded in
  let u' := Unfolded.__init__ originals' unfolded in
  Unfolded.values u = unfolded
  /\ Unfolded.vals u = unfolded
  /\ Unfolded.plot_spectral_rigidity u min_L max_L L_grid_size c_iters title
       mode outfile ensembles show_progress w
     = (Ld <- spectralRigidity unfolded (dflt 50000%Z c_iters) L_grid_size
                (dflt 2 min_L) (dflt 50 max_L) (dflt true show_progress) ;;
        df <- lift (pd_DataFrame [("L"%string, fst Ld); ("delta"%string, snd Ld)]) ;;
        plot_result <- plot_spectral_rigidity_ unfolded df
                         (dflt "Spectral Rigidity"%string title)
                         (dflt "block"%string mode) outfile
                         (dflt Unfolded.default_ensembles ensembles) ;;
        ret (fst Ld, snd Ld, plot_result)) w
  /\ Unfolded.plot_level_variance u min_L max_L c_iters L_grid_size title
       mode outfile ensembles show_progress w
     = (Ls <- level_number_variance unfolded (dflt 50000%Z c_iters) L_grid_size
                (dflt 2 min_L) (dflt 50 max_L) (dflt true show_progress) ;;
        df <- lift (pd_DataFrame [("L"%string, fst Ls); ("sigma"%string, snd Ls)]) ;;
        plot_result <- plot_level_number_variance_ unfolded df
                         (dflt "Level Number Variance"%string title)
                         (dflt "block"%string mode) outfile
                         (dflt Unfolded.default_ensembles ensembles) ;;
        ret (fst Ls, snd Ls, plot_result)) w
  /\ Unfolded.plot_spectral_rigidity u min_L max_L L_grid_size c_iters title
       mode outfile ensembles show_progress w
     = Unfolded.plot_spectral_rigidity u' min_L max_L L_grid_size c_iters title
         mode outfile ensembles show_progress w
  /\ Unfolded.plot_level_variance u min_L max_L c_iters L_grid_size title
       mode outfile ensembles show_progress w
     = Unfolded.plot_level_variance u' min_L max_L c_iters L_grid_size title
         mode outfile ensembles show_progress w.
Proof. cbv zeta. repeat split; reflexivity. Qed.

(* ================================================================= *)
(** ** Further properties of the ensemble formulas *)

Lemma linspace_negative_message a b n :
  (n < 0)%Z -> exists msg, Np.linspace a b n = Raise (ValueError msg).
Proof.
  intros Hn. unfold Np.linspace.
  destruct (Z.ltb_spec n 0); [eexists; reflexivity | lia].
Qed.

(** X1. Without explicit points a negative point count is refused: the
    Poisson and GOE NNSD and NNNSD and the rigidity and level variance of
    every ensemble raise [ValueError] (from [np.linspace]). *)
Theorem X1_negative_point_count_raises `{Special} (e : ensemble)
    (r : option (R * R)) (lo hi : option R) (k : Z) :
  (k < 0)%Z ->
  let refused (res : result (list float64)) :=
    exists msg, res = Raise (ValueError msg) in
  refused (Poisson.nnsd r (Some k) None)
  /\ refused (GOE.nnsd r (Some k) None)
  /\ refused (Poisson.nnnsd r (Some k) None)
  /\ refused (GOE.nnnsd r (Some k) None)
  /\ refused (spectral_rigidity e lo hi (Some k) None)
  /\ refused (level_variance e lo hi (Some k) None).
Proof.
  intros Hk refused. unfold refused.
  assert (Hlin : forall a b, exists msg, Np.linspace a b k = Raise (ValueError msg))
    by (intros; now apply linspace_negative_message).
  repeat match goal with |- _ /\ _ => split end.
  - unfold Poisson.nnsd. cbv zeta. cbn [dflt points_or].
    destruct (Hlin (fst (dflt (0, 3) r)) (snd (dflt (0, 3) r))) as (msg & ->).
    now exists msg.
  - unfold GOE.nnsd. cbv zeta. cbn [dflt points_or].
    destruct (Hlin (fst (dflt (0, 3) r)) (snd (dflt (0, 3) r))) as (msg & ->).
    now exists msg.
  - unfold Poisson.nnnsd. cbv zeta. cbn [dflt points_or].
    destruct (Hlin (fst (dflt (0, 4) r)) (snd (dflt (0, 4) r))) as (msg & ->).
    now exists msg.
  - unfold GOE.nnnsd. cbv zeta. cbn [dflt points_or].
    destruct (Hlin (fst (dflt (0, 3) r)) (snd (dflt (0, 3) r))) as (msg & ->).
    now exists msg.
  - destruct (Hlin (dflt 0.5 lo) (dflt 20 hi)) as (msg & Hmsg). exists msg.
    destruct e;
      unfold spectral_rigidity, Poisson.spectral_rigidity, GOE.spectral_rigidity,
        GUE.spectral_rigidity, GSE.spectral_rigidity;
      cbv zeta; cbn [dflt points_or]; now rewrite Hmsg.
  - destruct (Hlin (dflt 0.5 lo) (dflt 20 hi)) as (msg & Hmsg). exists msg.
    destruct e;
      unfold level_variance, Poisson.level_variance, GOE.level_variance,
        GUE.level_variance, GSE.level_variance;
      cbv zeta; cbn [dflt points_or]; now rewrite Hmsg.
Qed.

Lemma X1_witness :
  (-1 < 0)%Z
  /\ exists msg, Poisson.nnsd None (Some (-1)%Z) None = Raise (ValueError msg).
Proof.
  assert (Hk : (-1 < 0)%Z) by lia.
  split; [exact Hk |].
  exact (proj1 (X1_negative_point_count_raises (H := nominal_special) poisson
                  None None None (-1) Hk)).
Defined.

(** X2. [GUE.nnsd] without explicit spacings never reads [n_points]: for
    every point count, negative ones included, it returns its formula on
    the 10000 evenly spaced samples of the given range. *)
Theorem X2_gue_nnsd_ignores_n_points (r : option (R * R)) (n n' : option Z) :
  let rg := dflt (0, 3) r in
  GUE.nnsd r n None
  = Ok (map (Table.nnsd gue)
          (Np.of_reals (Table.evenly_spaced (fst rg) (snd rg) (Z.to_nat 10000))))
  /\ GUE.nnsd r n None = GUE.nnsd r n' None
  /\ exists out, GUE.nnsd r n None = Ok out /\ length out = Z.to_nat 10000.
Proof.
  assert (Hrun : forall k,
             GUE.nnsd r k None
             = Ok (map (Table.nnsd gue)
                     (Np.of_reals
                        (Table.evenly_spaced (fst (dflt (0, 3) r))
                           (snd (dflt (0, 3) r)) (Z.to_nat 10000))))).
  { intros k. unfold GUE.nnsd. cbv zeta. cbn [points_or].
    rewrite linspace_evenly_spaced by lia. cbn [rmap rbind]. f_equal.
    apply map_ext. intros s. apply (nnsd_at_table gue). }
  cbv zeta. split; [apply Hrun |]. split; [now rewrite !Hrun |].
  eexists. split; [apply Hrun |].
  unfold Np.of_reals. now rewrite !length_map, evenly_spaced_length.
Qed.

Lemma log_nonpositive (x : R) :
  x <= 0 -> F64.log (Fin x) = if Req_dec_T x 0 then NInf else NaN.
Proof.
  intros Hx. unfold F64.log.
  destruct (Req_dec_T x 0) as [-> | Hne].
  - now rewrite Rsign_zero.
  - rewrite Rsign_neg by lra. reflexivity.
Qed.

Lemma log_table_nonpositive `{Special} (e : ensemble) (x : R) :
  x <= 0 -> e <> poisson ->
  Table.delta3 e (Fin x) = (if Req_dec_T x 0 then NInf else NaN)
  /\ Table.sigma2 e (Fin x) = (if Req_dec_T x 0 then NInf else NaN).
Proof.
  intros Hx He. pose proof PI_RGT_0 as Hpi.
  destruct e; [contradiction | | |];
    unfold Table.delta3, Table.sigma2; cbv zeta; unfold F64.pi;
    cbn [F64.mul F64.pow];
    rewrite log_nonpositive by nra;
    rewrite !div_fin by fin_side;
    cbn [F64.mul F64.pow];
    (destruct (Req_dec_T _ 0) as [H0 | H0]; destruct (Req_dec_T x 0) as [Hx0 | Hx0];
     try (exfalso; nra));
    cbn [F64.add F64.sub F64.opp F64.mul];
    rewrite ?mul_fin_ninf, ?Rsign_pos by fin_side; split; reflexivity.
Qed.

(** X3. The logarithm has no finite value at a non-positive interval
    length: at [L = 0] the rigidity and the level variance of GOE, GUE and
    GSE are [-inf], and at a negative [L] they are [nan]; no error is
    raised. *)
Theorem X3_log_formulas_at_nonpositive_L `{Special} (L : R)
    (lo hi : option R) (n : option Z) :
  L <= 0 ->
  let v := if Req_dec_T L 0 then NInf else NaN in
  GOE.spectral_rigidity lo hi n (Some [Fin L]) = Ok [v]
  /\ GOE.level_variance lo hi n (Some [Fin L]) = Ok [v]
  /\ GUE.spectral_rigidity lo hi n (Some [Fin L]) = Ok [v]
  /\ GUE.level_variance lo hi n (Some [Fin L]) = Ok [v]
  /\ GSE.spectral_rigidity lo hi n (Some [Fin L]) = Ok [v]
  /\ GSE.level_variance lo hi n (Some [Fin L]) = Ok [v].
Proof.
  intros HL v.
  assert (Hd : forall e, e <> poisson ->
             spectral_rigidity e lo hi n (Some [Fin L]) = Ok [v]).
  { intros e He. rewrite (rigidity_on_grid e lo hi n (Some [Fin L]) [Fin L])
      by constructor.
    cbn [map]. now rewrite (proj1 (log_table_nonpositive e L HL He)). }
  assert (Hs : forall e, e <> poisson ->
             level_variance e lo hi n (Some [Fin L]) = Ok [v]).
  { intros e He. rewrite (variance_on_grid e lo hi n (Some [Fin L]) [Fin L])
      by constructor.
    cbn [map]. now rewrite (proj2 (log_table_nonpositive e L HL He)). }
  repeat split.
  - apply (Hd goe). discriminate.
  - apply (Hs goe). discriminate.
  - apply (Hd gue). discriminate.
  - apply (Hs gue). discriminate.
  - apply (Hd gse). discriminate.
  - apply (Hs gse). discriminate.
Qed.

Lemma X3_witness :
  0 <= 0 /\ GOE.spectral_rigidity (H := nominal_special) None None None
              (Some [Fin 0])
            = Ok [if Req_dec_T 0 0 then NInf else NaN].
Proof.
  assert (H0 : 0 <= 0) by lra.
  split; [exact H0 |].
  exact (proj1 (X3_log_formulas_at_nonpositive_L (H := nominal_special) 0
                  None None None H0)).
Defined.

Lemma table_on_positive `{Special} (e : ensemble) (Ls : list R) :
  Forall (fun L => 0 < L) Ls ->
  map (Table.delta3 e) (Np.of_reals Ls)
  = Np.of_reals (map (Table.delta3_real e) Ls)
  /\ map (Table.sigma2 e) (Np.of_reals Ls)
     = Np.of_reals (map (Table.sigma2_real e) Ls).
Proof.
  intros Hpos. rewrite Forall_forall in Hpos. unfold Np.of_reals.
  rewrite !map_map.
  split; apply map_ext_in; intros L HL;
    [apply delta3_finite | apply sigma2_finite]; auto.
Qed.

(** X4. On positive finite interval lengths the level variance of an
    ensemble is an affine function of its spectral rigidity that does not
    depend on [L]: fifteen times the rigidity for Poisson, and twice the
    rigidity plus 9/(2 pi^2), 9/(4 pi^2) and 9/(8 pi^2) for GOE, GUE and
    GSE. *)
Theorem X4_level_variance_from_rigidity `{Special} (e : ensemble)
    (Ls : list R) (lo hi : option R) (n : option Z) :
  Forall (fun L => 0 < L) Ls ->
  let k := match e with poisson => 15 | _ => 2 end in
  let c := match e with
           | poisson => 0
           | goe => 9 / (2 * PI ^ 2)
           | gue => 9 / (4 * PI ^ 2)
           | gse => 9 / (8 * PI ^ 2)
           end in
  exists ds,
    spectral_rigidity e lo hi n (Some (Np.of_reals Ls)) = Ok (Np.of_reals ds)
    /\ level_variance e lo hi n (Some (Np.of_reals Ls))
       = Ok (Np.of_reals (map (fun d => k * d + c) ds))
    /\ length ds = length Ls.
Proof.
  intros Hpos k c. exists (map (Table.delta3_real e) Ls).
  destruct (table_on_positive e Ls Hpos) as [Hd Hs].
  rewrite (rigidity_on_grid e lo hi n _ (Np.of_reals Ls)) by constructor.
  rewrite (variance_on_grid e lo hi n _ (Np.of_reals Ls)) by constructor.
  rewrite Hd, Hs, map_map, length_map. repeat split.
  do 2 f_equal. apply map_ext. intros L. pose proof PI_RGT_0 as Hpi.
  unfold k, c. destruct e; unfold Table.sigma2_real, Table.delta3_real;
    field; fin_side.
Qed.

Lemma X4_witness :
  Forall (fun L => 0 < L) [1; 2]
  /\ exists ds,
       spectral_rigidity (H := nominal_special) goe None None None
         (Some (Np.of_reals [1; 2])) = Ok (Np.of_reals ds)
       /\ level_variance (H := nominal_special) goe None None None
            (Some (Np.of_reals [1; 2]))
          = Ok (Np.of_reals (map (fun d => 2 * d + 9 / (2 * PI ^ 2)) ds))
       /\ length ds = 2%nat.
Proof.
  assert (Hpos : Forall (fun L => 0 < L) [1; 2])
    by (repeat constructor; lra).
  split; [exact Hpos |].
  exact (X4_level_variance_from_rigidity (H := nominal_special) goe [1; 2]
           None None None Hpos).
Defined.

Lemma nnsd_real_nonnegative (e : ensemble) (s : R) :
  0 <= s -> 0 <= Table.nnsd_real e s.
Proof.
  intros Hs. pose proof PI_RGT_0 as Hpi.
  assert (Hpi2 : 0 < PI ^ 2) by sign_of.
  assert (Hpi3 : 0 < PI ^ 3) by sign_of.
  assert (Hs2 : 0 <= s ^ 2) by nra.
  assert (Hs4 : 0 <= s ^ 4) by (replace (s ^ 4) with (s ^ 2 * s ^ 2) by ring; nra).
  destruct e; unfold Table.nnsd_real.
  - apply Rlt_le, exp_pos.
  - apply Rmult_le_pos; [| apply Rlt_le, exp_pos].
    apply Rmult_le_pos; [nra | lra].
  - apply Rmult_le_pos; [| apply Rlt_le, exp_pos].
    apply Rmult_le_pos; [| assumption]. apply Rlt_le. sign_of.
  - apply Rmult_le_pos; [| apply Rlt_le, exp_pos].
    apply Rmult_le_pos; [| assumption]. apply Rlt_le. sign_of.
Qed.

Lemma nnsd_on_points (e : ensemble) r n (ss : list float64) :
  nnsd e r n (Some ss) = Ok (map (Table.nnsd e) ss).
Proof.
  destruct e; unfold nnsd, Poisson.nnsd, GOE.nnsd, GUE.nnsd, GSE.nnsd;
    cbv zeta; cbn [points_or rbind]; try reflexivity;
    f_equal; apply map_ext; intros s;
    first [ apply (nnsd_at_table goe) | apply (nnsd_at_table gue)
          | apply (nnsd_at_table gse) ].
Qed.

(** X5. At a spacing that is not negative, [+inf] included, no ensemble's
    NNSD is negative and the Poisson NNSD is not above 1: each value is a
    number that is not negative or [nan] (where an infinite factor meets a
    zero one), there is one value per spacing, and no error is raised. *)
Theorem X5_nnsd_never_negative (e : ensemble) (ss : list float64)
    (r : option (R * R)) (n : option Z) :
  Forall (fun s => F64.leb (Fin 0) s = true) ss ->
  exists vs,
    nnsd e r n (Some ss) = Ok vs
    /\ length vs = length ss
    /\ Forall (fun v => F64.ltb v (Fin 0) = false) vs
    /\ (e = poisson -> Forall (fun v => F64.ltb (Fin 1) v = false) vs).
Proof.
  intros Hss. exists (map (Table.nnsd e) ss).
  rewrite nnsd_on_points. rewrite Forall_forall in Hss.
  split; [reflexivity |]. split; [apply length_map |].
  assert (Hpi : 0 < PI) by exact PI_RGT_0.
  split.
  - apply Forall_forall. intros v Hv. apply in_map_iff in Hv.
    destruct Hv as (s & <- & Hs). specialize (Hss s Hs).
    destruct s as [x | | |]; try discriminate.
    + rewrite nnsd_finite. unfold F64.leb in Hss. unfold F64.ltb.
      destruct (Rle_dec 0 x) as [Hx | _]; [| discriminate].
      pose proof (nnsd_real_nonnegative e x Hx).
      destruct (Rlt_dec (Table.nnsd_real e x) 0); [lra | reflexivity].
    + destruct e; unfold Table.nnsd; cbv zeta; f64_eval; unfold F64.ltb;
        try (destruct (Rlt_dec 0 0); [lra |]); reflexivity.
  - intros ->. apply Forall_forall. intros v Hv. apply in_map_iff in Hv.
    destruct Hv as (s & <- & Hs). specialize (Hss s Hs).
    destruct s as [x | | |]; try discriminate.
    + rewrite nnsd_finite. unfold F64.leb in Hss. unfold F64.ltb.
      destruct (Rle_dec 0 x) as [Hx | _]; [| discriminate].
      unfold Table.nnsd_real.
      assert (Hle : exp (- x) <= 1).
      { rewrite <- exp_0. destruct (Req_dec_T x 0) as [-> | Hne];
          [rewrite Ropp_0; lra |]. apply Rlt_le, exp_increasing. lra. }
      destruct (Rlt_dec 1 (exp (- x))); [lra | reflexivity].
    + unfold Table.nnsd, F64.ltb. cbn [F64.opp F64.exp].
      destruct (Rlt_dec 1 0); [lra | reflexivity].
Qed.

Lemma X5_witness :
  Forall (fun s => F64.leb (Fin 0) s = true) [Fin 1; PInf]
  /\ exists vs,
       nnsd gue None None (Some [Fin 1; PInf]) = Ok vs
       /\ length vs = 2%nat
       /\ Forall (fun v => F64.ltb v (Fin 0) = false) vs.
Proof.
  assert (Hss : Forall (fun s => F64.leb (Fin 0) s = true) [Fin 1; PInf]).
  { repeat constructor. unfold F64.leb.
    destruct (Rle_dec 0 1); [reflexivity | lra]. }
  split; [exact Hss |].
  destruct (X5_nnsd_never_negative gue [Fin 1; PInf] None None Hss)
    as (vs & Hrun & Hlen & Hpos & _).
  exists vs. repeat split; assumption.
Defined.

(** X6. The Poisson NNNSD raises a spacing to the power 0.6, so at every
    negative spacing its value is [nan], whatever the gamma function
    returns; no error is raised. *)
Theorem X6_poisson_nnnsd_negative_spacing `{Special} (ss : list R)
    (r : option (R * R)) (n : option Z) :
  Forall (fun s => s < 0) ss ->
  Poisson.nnnsd r n (Some (Np.of_reals ss)) = Ok (map (fun _ => NaN) ss).
Proof.
  intros Hss. rewrite Forall_forall in Hss.
  unfold Poisson.nnnsd. cbv zeta. cbn [points_or rbind]. f_equal.
  unfold Np.of_reals. rewrite map_map. apply map_ext_in. intros s Hs.
  unfold Poisson.brody_dist. cbv zeta.
  assert (Hp : F64.power (Fin s) 0.6 = NaN).
  { unfold F64.power. now rewrite Rsign_neg by auto. }
  rewrite Hp.
  destruct (Fin (0.6 + 1) * F64.power (Fin (gamma ((0.6 + 2) / (0.6 + 1)))) (0.6 + 1))%f64;
    reflexivity.
Qed.

Lemma X6_witness :
  Forall (fun s => s < 0) [-1]
  /\ Poisson.nnnsd (H := nominal_special) None None (Some (Np.of_reals [-1]))
     = Ok [NaN].
Proof.
  assert (Hss : Forall (fun s => s < 0) [-1]) by (repeat constructor; lra).
  split; [exact Hss |].
  exact (X6_poisson_nnnsd_negative_spacing (H := nominal_special) [-1]
           None None Hss).
Defined.

(* ================================================================= *)
(** ** Entries of the generated matrices *)

Lemma nth_map_in {A B} (f : A -> B) (l : list A) (d : B) (d' : A) (i : nat) :
  (i < length l)%nat -> nth i (map f l) d = f (nth i l d').
Proof.
  intros Hi. rewrite (nth_indep _ d (f d')) by now rewrite length_map.
  apply map_nth.
Qed.

Lemma nth_map_seq {A} (f : nat -> A) (n i : nat) (d : A) :
  (i < n)%nat -> nth i (map f (seq 0 n)) d = f i.
Proof.
  intros Hi. rewrite (nth_map_in f _ d 0%nat) by now rewrite length_seq.
  now rewrite seq_nth.
Qed.

Lemma square_nth_row {A} n (m : matrix A) i :
  square n m -> (i < n)%nat -> length (nth i m []) = n.
Proof.
  intros Hsq Hi. apply (square_rows n m); [assumption |].
  apply nth_In. destruct Hsq as [-> _]. assumption.
Qed.

(** Row [i], column [j] of a flat array cut into rows of [cols] cells. *)
Lemma rows_entry {A} (rows cols : nat) (flat : list A) (d : A) i j :
  (i < rows)%nat -> (j < cols)%nat ->
  nth j (nth i (map (fun r => firstn cols (skipn (r * cols) flat)) (seq 0 rows)) []) d
  = nth (i * cols + j) flat d.
Proof.
  intros Hi Hj. rewrite nth_map_seq by assumption.
  rewrite nth_firstn. destruct (Nat.ltb_spec j cols); [| lia].
  apply nth_skipn.
Qed.

Lemma rows_shape {A} (rows cols : nat) (flat : list A) :
  length flat = (rows * cols)%nat ->
  let m := map (fun r => firstn cols (skipn (r * cols) flat)) (seq 0 rows) in
  length m = rows /\ Forall (fun row => length row = cols) m.
Proof.
  intros Hlen m. unfold m. rewrite length_map, length_seq.
  split; [reflexivity |].
  apply Forall_forall. intros row Hrow. apply in_map_iff in Hrow.
  destruct Hrow as (r & <- & Hr). apply in_seq in Hr.
  rewrite length_firstn, length_skipn, Hlen. apply Nat.min_l. nia.
Qed.

Lemma zip_with_entry {A B D} (f : A -> B -> D) n (m1 : matrix A) (m2 : matrix B)
    (a : A) (b : B) (d : D) i j :
  square n m1 -> square n m2 -> (i < n)%nat -> (j < n)%nat ->
  nth j (nth i (Arr.zip_with f m1 m2) []) d
  = f (nth j (nth i m1 []) a) (nth j (nth i m2 []) b).
Proof.
  intros H1 H2 Hi Hj. pose proof H1 as [L1 _]. pose proof H2 as [L2 _].
  pose proof (square_nth_row n m1 i H1 Hi) as R1.
  pose proof (square_nth_row n m2 i H2 Hi) as R2.
  unfold Arr.zip_with.
  rewrite (nth_map_in _ _ _ ([], []))
    by (rewrite length_combine, L1, L2, Nat.min_id; assumption).
  rewrite combine_nth by congruence. cbn [fst snd].
  rewrite (nth_map_in _ _ _ (a, b))
    by (rewrite length_combine, R1, R2, Nat.min_id; assumption).
  rewrite combine_nth by congruence. reflexivity.
Qed.

Lemma map_entries_entry {A B} (f : A -> B) n (m : matrix A) (a : A) (b : B) i j :
  square n m -> (i < n)%nat -> (j < n)%nat ->
  nth j (nth i (Arr.map_entries f m) []) b = f (nth j (nth i m []) a).
Proof.
  intros Hsq Hi Hj. pose proof Hsq as [L _].
  pose proof (square_nth_row n m i Hsq Hi) as Hr.
  unfold Arr.map_entries.
  rewrite (nth_map_in _ _ _ []) by (rewrite L; assumption).
  apply nth_map_in. rewrite Hr. assumption.
Qed.

Lemma transpose_entry {A} (d : A) n (m : matrix A) i j :
  square n m -> (i < n)%nat -> (j < n)%nat ->
  nth j (nth i (Arr.transpose d m) []) d = nth i (nth j m []) d.
Proof.
  intros Hsq Hi Hj. pose proof Hsq as [L _].
  destruct m as [| row rest]; [cbn in L; lia |].
  assert (Hrow : length row = n)
    by (apply (square_rows n (row :: rest)); [easy | now left]).
  unfold Arr.transpose. rewrite nth_map_seq by (rewrite Hrow; assumption).
  apply (nth_map_in (fun r => nth i r d)). rewrite L. assumption.
Qed.

Lemma drawn_nth (w : world) (k i : nat) :
  (i < k)%nat -> nth i (map (tape w) (seq 0 k)) 0 = tape w i.
Proof. apply nth_map_seq. Qed.

Lemma standard_normal2_run (rows cols : Z) (w : world) :
  (0 <= rows)%Z -> (0 <= cols)%Z ->
  exists m,
    Random.standard_normal2 rows cols w
    = (Ok m, advanced (Z.to_nat rows * Z.to_nat cols) w)
    /\ length m = Z.to_nat rows
    /\ Forall (fun row => length row = Z.to_nat cols) m
    /\ forall i j, (i < Z.to_nat rows)%nat -> (j < Z.to_nat cols)%nat ->
         entry m i j = tape w (i * Z.to_nat cols + j).
Proof.
  intros Hr Hc. unfold Random.standard_normal2.
  destruct (Z.ltb_spec rows 0); [lia |].
  destruct (Z.ltb_spec cols 0); [lia |]. cbn [orb].
  unfold bind. rewrite draw_run. cbn [ret].
  eexists. split; [reflexivity |].
  destruct (rows_shape (Z.to_nat rows) (Z.to_nat cols)
              (map (tape w) (seq 0 (Z.to_nat rows * Z.to_nat cols))))
    as [Hl Hrows]; [now rewrite length_map, length_seq |].
  split; [exact Hl |]. split; [exact Hrows |].
  intros i j Hi Hj. unfold entry. rewrite rows_entry by assumption.
  apply drawn_nth. nia.
Qed.

Lemma standard_normal2_negative (rows cols : Z) (w : world) :
  (rows < 0)%Z \/ (cols < 0)%Z ->
  exists msg, Random.standard_normal2 rows cols w = (Raise (ValueError msg), w).
Proof.
  intros Hneg. unfold Random.standard_normal2.
  destruct (Z.ltb_spec rows 0); [eexists; reflexivity |].
  destruct (Z.ltb_spec cols 0); [eexists; reflexivity | lia].
Qed.

(** The matrix [_generate_GOE_matrix] builds without a seed, entry by
    entry, from the variates [z_0, z_1, ...] the generator hands out. *)
Lemma goe_matrix_run `{External} (size : Z) (mean sd : option R) (w : world) :
  (0 <= size)%Z -> 0 <= dflt 1 sd ->
  let n := Z.to_nat size in
  let x k := dflt 0 mean + dflt 1 sd * tape w k in
  exists m,
    _generate_GOE_matrix (Some size) mean sd None w = (Ok m, advanced (n * n) w)
    /\ square n m
    /\ forall i j, (i < n)%nat -> (j < n)%nat ->
         entry m i j = (x (i * n + j)%nat + x (j * n + i)%nat) / sqrt 2.
Proof.
  intros Hsize Hsd n x.
  destruct (standard_normal2_run size size w Hsize Hsize)
    as (z & Hz & Hl & Hrows & Hent).
  assert (Hzsq : square n z) by (split; assumption).
  unfold _generate_GOE_matrix. cbv zeta. cbn [dflt].
  unfold bind at 1. cbn [ret].
  set (mu := dflt 0 mean) in *. set (sigma := dflt 1 sd) in *.
  destruct (orb (Rneqb mu 0) (Rneqb sigma 1)) eqn:Hbranch.
  - unfold Random.normal2.
    destruct (Rlt_dec sigma 0) as [Hlt | _]; [lra |].
    unfold bind. rewrite Hz. cbn [ret].
    set (m0 := Arr.map_entries (fun v => mu + sigma * v) z).
    assert (Hm0 : square n m0) by now apply map_entries_square.
    eexists. split; [reflexivity |].
    split.
    { apply map_entries_square, zip_with_square; [assumption |].
      now apply transpose_square. }
    intros i j Hi Hj. unfold entry.
    rewrite (map_entries_entry _ n _ 0)
      by (first [ assumption
                | apply zip_with_square;
                  [assumption | now apply transpose_square] ]).
    rewrite (zip_with_entry _ n _ _ 0 0)
      by (first [assumption | now apply transpose_square]).
    rewrite (transpose_entry 0 n) by assumption.
    unfold m0. rewrite !(map_entries_entry _ n z 0) by assumption.
    fold (entry z i j). fold (entry z j i).
    rewrite !Hent by assumption. reflexivity.
  - apply orb_false_iff in Hbranch. destruct Hbranch as [Hmu Hsigma].
    unfold Rneqb in Hmu, Hsigma.
    destruct (Req_dec_T mu 0) as [Emu | _]; [| discriminate].
    destruct (Req_dec_T sigma 1) as [Esigma | _]; [| discriminate].
    unfold bind. rewrite Hz. cbn [ret].
    eexists. split; [reflexivity |].
    split.
    { apply map_entries_square, zip_with_square; [assumption |].
      now apply transpose_square. }
    intros i j Hi Hj. unfold entry.
    rewrite (map_entries_entry _ n _ 0)
      by (first [ assumption
                | apply zip_with_square;
                  [assumption | now apply transpose_square] ]).
    rewrite (zip_with_entry _ n _ _ 0 0)
      by (first [assumption | now apply transpose_square]).
    rewrite (transpose_entry 0 n) by assumption.
    fold (entry z i j). fold (entry z j i).
    rewrite !Hent by assumption. unfold x. rewrite Emu, Esigma.
    unfold n, Rdiv. ring.
Qed.

(* ================================================================= *)
(** ** Further properties of the generators of rmt/construct.py *)

(** X7. For a size [n >= 0] and a standard deviation [sd >= 0],
    [_generate_GOE_matrix] without a seed returns an n x n symmetric matrix
    whose entry (i, j) is [(x_(i n + j) + x_(j n + i)) / sqrt 2] with
    [x_k = mean + sd * z_k] for the k-th variate [z_k] of the generator,
    on either branch of its test of [mean] and [sd]; it consumes exactly
    [n * n] variates and prints nothing. *)
Theorem X7_goe_matrix_symmetric `{External} (size : Z) (mean sd : option R)
    (w : world) :
  (0 <= size)%Z -> 0 <= dflt 1 sd ->
  let n := Z.to_nat size in
  let x k := dflt 0 mean + dflt 1 sd * tape w k in
  exists m,
    _generate_GOE_matrix (Some size) mean sd None w = (Ok m, advanced (n * n) w)
    /\ symmetric n m
    /\ forall i j, (i < n)%nat -> (j < n)%nat ->
         entry m i j = (x (i * n + j)%nat + x (j * n + i)%nat) / sqrt 2.
Proof.
  intros Hsize Hsd n x.
  destruct (goe_matrix_run size mean sd w Hsize Hsd) as (m & Hrun & Hsq & Hent).
  exists m. split; [exact Hrun |]. split; [| exact Hent].
  split; [exact Hsq |]. intros i j Hi Hj.
  rewrite (Hent i j Hi Hj), (Hent j i Hj Hi). f_equal. ring.
Qed.

Lemma X7_witness :
  (0 <= 2)%Z /\ 0 <= dflt 1 (Some 3)
  /\ exists m,
       _generate_GOE_matrix (H := diagonal_external) (Some 2%Z) (Some 5)
         (Some 3) None quiet_world
       = (Ok m, advanced 4 quiet_world)
       /\ symmetric 2 m.
Proof.
  assert (H2 : (0 <= 2)%Z) by lia.
  assert (Hsd : 0 <= dflt 1 (Some 3)) by (cbn; lra).
  split; [exact H2 |]. split; [exact Hsd |].
  destruct (X7_goe_matrix_symmetric (H := diagonal_external) 2 (Some 5) (Some 3)
              quiet_world H2 Hsd) as (m & Hrun & Hsym & _).
  exists m. split; [exact Hrun | exact Hsym].
Defined.

(** X8. [_generate_GOE_matrix] fails with [ValueError], leaving the
    generator and the output as they were, when the seed is outside
    [0, 2^32 - 1], or when no seed is given and the size or the standard
    deviation is negative. *)
Theorem X8_goe_matrix_rejects `{External} (size : Z) (mean sd : option R)
    (seed : option Z) (w : world) :
  (exists s, seed = Some s /\ (s < 0 \/ 2 ^ 32 <= s)%Z)
  \/ (seed = None /\ ((size < 0)%Z \/ dflt 1 sd < 0)) ->
  exists msg,
    _generate_GOE_matrix (Some size) mean sd seed w = (Raise (ValueError msg), w).
Proof.
  intros [(s & -> & Hs) | (-> & Hbad)];
    unfold _generate_GOE_matrix; cbv zeta; cbn [dflt].
  - unfold bind at 1. unfold Random.seed.
    assert (Hcond : ((s <? 0) || (2 ^ 32 <=? s))%Z = true).
    { apply orb_true_iff. destruct Hs; [left; lia | right; lia]. }
    rewrite Hcond. eexists. reflexivity.
  - unfold bind at 1. cbn [ret].
    set (mu := dflt 0 mean). set (sigma := dflt 1 sd) in *.
    destruct (Rlt_dec sigma 0) as [Hneg | Hpos].
    + assert (Hb : orb (Rneqb mu 0) (Rneqb sigma 1) = true).
      { apply orb_true_iff. right. unfold Rneqb.
        destruct (Req_dec_T sigma 1); [lra | reflexivity]. }
      rewrite Hb. unfold bind, Random.normal2.
      destruct (Rlt_dec sigma 0); [| contradiction].
      eexists. reflexivity.
    + assert (Hsize : (size < 0)%Z) by (destruct Hbad; [assumption | lra]).
      destruct (standard_normal2_negative size size w (or_introl Hsize))
        as (msg & Hmsg).
      exists msg.
      destruct (orb (Rneqb mu 0) (Rneqb sigma 1)); unfold bind.
      * unfold Random.normal2. destruct (Rlt_dec sigma 0); [contradiction |].
        unfold bind. now rewrite Hmsg.
      * now rewrite Hmsg.
Qed.

Lemma X8_witness :
  ((exists s, Some (2 ^ 32)%Z = Some s /\ (s < 0 \/ 2 ^ 32 <= s)%Z)
   \/ (Some (2 ^ 32)%Z = None /\ ((3 < 0)%Z \/ dflt 1 None < 0)))
  /\ exists msg,
       _generate_GOE_matrix (H := diagonal_external) (Some 3%Z) None None
         (Some (2 ^ 32)%Z) quiet_world
       = (Raise (ValueError msg), quiet_world).
Proof.
  assert (Hbad : (exists s, Some (2 ^ 32)%Z = Some s /\ (s < 0 \/ 2 ^ 32 <= s)%Z)
                 \/ (Some (2 ^ 32)%Z = None /\ ((3 < 0)%Z \/ dflt 1 None < 0))).
  { left. exists (2 ^ 32)%Z. split; [reflexivity | right; lia]. }
  split; [exact Hbad |].
  exact (X8_goe_matrix_rejects (H := diagonal_external) 3 None None
           (Some (2 ^ 32)%Z) quiet_world Hbad).
Defined.

(** X9. With a seed in [0, 2^32 - 1] the outcome of
    [_generate_GOE_matrix], matrix or error, and the generator state it
    leaves behind are the same whatever the generator state and the output
    were before the call; nothing is printed. *)
Theorem X9_seeded_goe_matrix_reproducible `{External} (size : option Z)
    (mean sd : option R) (s : Z) (w1 w2 : world) :
  (0 <= s < 2 ^ 32)%Z ->
  let run := _generate_GOE_matrix size mean sd (Some s) in
  fst (run w1) = fst (run w2)
  /\ tape (snd (run w1)) = tape (snd (run w2))
  /\ stdout (snd (run w1)) = stdout w1.
Proof.
  intros Hs run. unfold run, _generate_GOE_matrix. cbv zeta.
  unfold bind at 1 3 5 7 9. unfold Random.seed.
  assert (Hcond : ((s <? 0) || (2 ^ 32 <=? s))%Z = false).
  { apply orb_false_iff. split; lia. }
  rewrite Hcond.
  destruct (orb (Rneqb (dflt 0 mean) 0) (Rneqb (dflt 1 sd) 1)).
  - unfold Random.normal2, Random.standard_normal2, bind, raise, ret.
    destruct (Rlt_dec (dflt 1 sd) 0); [repeat split |].
    destruct ((dflt 100%Z size <? 0)%Z || (dflt 100%Z size <? 0)%Z);
      repeat split.
  - unfold Random.standard_normal2, bind, raise, ret.
    destruct ((dflt 100%Z size <? 0)%Z || (dflt 100%Z size <? 0)%Z);
      repeat split.
Qed.

Lemma X9_witness :
  (0 <= 7 < 2 ^ 32)%Z
  /\ fst (_generate_GOE_matrix (H := diagonal_external) (Some 2%Z) None None
            (Some 7%Z) quiet_world)
     = fst (_generate_GOE_matrix (H := diagonal_external) (Some 2%Z) None None
              (Some 7%Z) (advanced 5 quiet_world)).
Proof.
  assert (Hs : (0 <= 7 < 2 ^ 32)%Z) by lia.
  split; [exact Hs |].
  exact (proj1 (X9_seeded_goe_matrix_reproducible (H := diagonal_external)
                  (Some 2%Z) None None 7 quiet_world (advanced 5 quiet_world)
                  Hs)).
Defined.

Ltac name_matrix_stage stage :=
  match goal with
  | |- context [bind ?c _] =>
      lazymatch c with
      | (if _ then _ else _) => set (stage := c)
      end
  end.

(** What [log] adds to a call of [generate_eigs]. *)
Lemma generate_eigs_logging `{External} (matsize : Z) (mean sd : option R)
    (kind : option string) (log : option bool) (w : world) :
  generate_eigs matsize mean sd kind log w
  = match generate_eigs matsize mean sd kind (Some false) w with
    | (Ok eigs, w1) =>
        (Ok eigs,
         if dflt false log
         then {| tape := tape w1; stdout := stdout w1 ++ log_lines |}
         else w1)
    | (Raise e, w1) => (Raise e, w1)
    end.
Proof.
  unfold generate_eigs. cbv zeta. cbn [dflt].
  name_matrix_stage stage.
  unfold bind. destruct (stage w) as [[Mx | e] w1]; [| reflexivity].
  destruct (dflt false log); unfold print, ret; cbn [tape stdout];
    [| reflexivity].
  unfold log_lines. now rewrite <- app_assoc.
Qed.

Lemma diag_square (v : list R) : square (length v) (Arr.diag v).
Proof.
  unfold Arr.diag, square. rewrite length_map, length_seq.
  split; [reflexivity |].
  apply Forall_forall. intros row Hrow. apply in_map_iff in Hrow.
  destruct Hrow as (i & <- & _). now rewrite length_map, length_seq.
Qed.

Lemma diag_entry (v : list R) i j :
  (i < length v)%nat -> (j < length v)%nat ->
  entry (Arr.diag v) i j = if Nat.eqb i j then nth i v 0 else 0.
Proof.
  intros Hi Hj. unfold entry, Arr.diag.
  rewrite nth_map_seq by assumption. now rewrite nth_map_seq by assumption.
Qed.

Lemma generate_poisson_run (size : Z) (w : world) :
  (0 <= size)%Z ->
  _generate_poisson (Some size) w
  = (Ok (Arr.diag (map (tape w) (seq 0 (Z.to_nat size)))),
     advanced (Z.to_nat size) w).
Proof.
  intros Hsize. unfold _generate_poisson, Random.standard_normal. cbv zeta.
  cbn [dflt]. destruct (Z.ltb_spec size 0); [lia |].
  unfold bind. rewrite draw_run. reflexivity.
Qed.

(** The complex matrix of the "gue" branch of [generate_eigs]. *)
Lemma gue_matrix_entries (n : nat) (re im : matrix R) :
  square n re -> square n im ->
  let A : matrix C := Arr.zip_with (fun x y => (x, y)) re im in
  let AH := Arr.transpose (0, 0)
              (Arr.map_entries (fun z : C => (fst z, - snd z)) A) in
  let m := Arr.map_entries (fun z : C => (fst z / 2, snd z / 2))
             (Arr.zip_with (fun a b : C => (fst a + fst b, snd a + snd b))
                A AH) in
  square n m
  /\ forall i j, (i < n)%nat -> (j < n)%nat ->
       entry_complex m i j
       = ((entry re i j + entry re j i) / 2, (entry im i j - entry im j i) / 2).
Proof.
  intros Hre Him A AH m.
  assert (HA : square n A) by now apply zip_with_square.
  assert (HAc : square n (Arr.map_entries (fun z : C => (fst z, - snd z)) A))
    by now apply map_entries_square.
  assert (HAH : square n AH) by now apply transpose_square.
  assert (Hsum : square n (Arr.zip_with
                             (fun a b : C => (fst a + fst b, snd a + snd b)) A AH))
    by now apply zip_with_square.
  split; [now apply map_entries_square |].
  intros i j Hi Hj. unfold entry_complex, m.
  rewrite (map_entries_entry _ n _ (0, 0)) by assumption.
  rewrite (zip_with_entry _ n _ _ (0, 0) (0, 0)) by assumption.
  unfold AH. rewrite (transpose_entry (0, 0) n) by assumption.
  rewrite (map_entries_entry _ n A (0, 0)) by assumption.
  unfold A. rewrite !(zip_with_entry _ n re im 0 0) by assumption.
  cbn [fst snd]. unfold entry. f_equal.
Qed.

Lemma generate_eigs_quiet `{External} (matsize : Z) (mean sd : option R)
    (w : world) :
  (0 <= matsize)%Z ->
  let n := Z.to_nat matsize in
  (0 <= dflt 1 sd ->
   exists m,
     _generate_GOE_matrix (Some matsize) (Some (dflt 0 mean)) (Some (dflt 1 sd))
       None w = (Ok m, advanced (n * n) w)
     /\ generate_eigs matsize mean sd (Some "goe"%string) (Some false) w
        = (Ok (eigvalsh m), advanced (n * n) w)
     /\ symmetric n m)
  /\ (exists m,
        generate_eigs matsize mean sd (Some "gue"%string) (Some false) w
        = (Ok (eigvalsh_complex m), advanced (n * n) (advanced (n * n) w))
        /\ hermitian n m
        /\ forall i j, (i < n)%nat -> (j < n)%nat ->
             entry_complex m i j
             = ((tape w (i * n + j) + tape w (j * n + i)) / 2,
                (tape w (i * n + j + n * n) - tape w (j * n + i + n * n)) / 2))
  /\ generate_eigs matsize mean sd (Some "poisson"%string) (Some false) w
     = (Ok (eigvalsh (Arr.diag (map (tape w) (seq 0 n)))), advanced n w).
Proof.
  intros Hn n. split; [| split].
  - intros Hsd.
    destruct (goe_matrix_run matsize (Some (dflt 0 mean)) (Some (dflt 1 sd)) w
                Hn Hsd) as (m & Hm & Hsq & Hent).
    exists m. split; [exact Hm |]. split.
    + unfold generate_eigs. cbv zeta.
      cbn [dflt String.eqb Ascii.eqb Bool.eqb].
      unfold bind. rewrite Hm. reflexivity.
    + split; [exact Hsq |]. intros i j Hi Hj.
      fold n in Hent. rewrite (Hent i j Hi Hj), (Hent j i Hj Hi).
      f_equal. ring.
  - destruct (standard_normal2_run matsize matsize w Hn Hn)
      as (re & Hre & Lre & Rre & Ere).
    destruct (standard_normal2_run matsize matsize (advanced (n * n) w) Hn Hn)
      as (im & Him & Lim & Rim & Eim).
    fold n in Hre, Him, Lre, Lim, Rre, Rim, Ere, Eim.
    assert (Sre : square n re) by (split; assumption).
    assert (Sim : square n im) by (split; assumption).
    destruct (gue_matrix_entries n re im Sre Sim) as [Hsq Hent].
    cbv zeta in Hsq, Hent.
    eexists. split; [| split].
    + unfold generate_eigs. cbv zeta.
      cbn [dflt String.eqb Ascii.eqb Bool.eqb].
      unfold bind. rewrite Hre, Him. reflexivity.
    + split; [exact Hsq |]. intros i j Hi Hj.
      rewrite (Hent i j Hi Hj), (Hent j i Hj Hi). cbn [fst snd].
      f_equal; field.
    + intros i j Hi Hj. rewrite (Hent i j Hi Hj).
      rewrite !Ere, !Eim by assumption. reflexivity.
  - unfold generate_eigs. cbv zeta. cbn [dflt String.eqb Ascii.eqb Bool.eqb].
    unfold bind. rewrite generate_poisson_run by assumption. reflexivity.
Qed.

(** X10. For [matsize >= 0] and a kind among "goe", "gue" and "poisson"
    (with [sd >= 0] for "goe"), [generate_eigs] returns exactly [matsize]
    eigenvalues in ascending order, consumes [matsize^2], [2 matsize^2] and
    [matsize] variates respectively, and prints its two log lines when
    [log] is set and nothing otherwise. *)
Theorem X10_generate_eigs_returns `{External} (matsize : Z) (mean sd : option R)
    (kind : string) (log : option bool) (w : world) :
  (0 <= matsize)%Z ->
  In kind ["goe"; "gue"; "poisson"]%string ->
  (kind = "goe"%string -> 0 <= dflt 1 sd) ->
  let n := Z.to_nat matsize in
  let drawn := if String.eqb kind "poisson" then n
               else if String.eqb kind "gue" then (2 * (n * n))%nat
                    else (n * n)%nat in
  exists eigs w',
    generate_eigs matsize mean sd (Some kind) log w = (Ok eigs, w')
    /\ length eigs = n
    /\ StronglySorted Rle eigs
    /\ (forall i, tape w' i = tape w (i + drawn)%nat)
    /\ stdout w' = stdout w ++ (if dflt false log then log_lines else []).
Proof.
  intros Hn Hkind Hsd n drawn.
  destruct (generate_eigs_quiet matsize mean sd w Hn) as (Hgoe & Hgue & Hpoi).
  fold n in Hgoe, Hgue, Hpoi.
  rewrite generate_eigs_logging.
  destruct Hkind as [<- | [<- | [<- | []]]].
  - destruct (Hgoe (Hsd eq_refl)) as (m & _ & Hrun & [Hsq _]). rewrite Hrun.
    eexists _, _. split; [reflexivity |].
    split; [now apply eigvalsh_length |].
    split; [now apply eigvalsh_ascending with n |].
    destruct (dflt false log); cbn [tape stdout advanced]; split;
      try reflexivity; now rewrite app_nil_r.
  - destruct Hgue as (m & Hrun & [Hsq _] & _). rewrite Hrun.
    eexists _, _. split; [reflexivity |].
    split; [now apply eigvalsh_complex_length |].
    split; [now apply eigvalsh_complex_ascending with n |].
    assert (Htape : forall i, tape w (i + n * n + n * n)%nat
                              = tape w (i + drawn)%nat)
      by (intros i; unfold drawn; cbn [String.eqb Ascii.eqb Bool.eqb];
          f_equal; lia).
    destruct (dflt false log); cbn [tape stdout advanced]; split;
      try exact Htape; try reflexivity; now rewrite app_nil_r.
  - rewrite Hpoi.
    assert (Hsq : square n (Arr.diag (map (tape w) (seq 0 n)))).
    { pose proof (diag_square (map (tape w) (seq 0 n))) as Hd.
      now rewrite length_map, length_seq in Hd. }
    eexists _, _. split; [reflexivity |].
    split; [now apply eigvalsh_length |].
    split; [now apply eigvalsh_ascending with n |].
    destruct (dflt false log); cbn [tape stdout advanced]; split;
      try reflexivity; now rewrite app_nil_r.
Qed.

Lemma X10_witness :
  (0 <= 2)%Z
  /\ In "poisson"%string ["goe"; "gue"; "poisson"]%string
  /\ ("poisson"%string = "goe"%string -> 0 <= dflt 1 None)
  /\ exists eigs w',
       generate_eigs (H := diagonal_external) 2 None None
         (Some "poisson"%string) (Some true) quiet_world = (Ok eigs, w')
       /\ length eigs = 2%nat
       /\ StronglySorted Rle eigs.
Proof.
  assert (H2 : (0 <= 2)%Z) by lia.
  assert (Hk : In "poisson"%string ["goe"; "gue"; "poisson"]%string)
    by (right; right; left; reflexivity).
  assert (Hsd : "poisson"%string = "goe"%string -> 0 <= dflt 1 None)
    by (intros _; cbn; lra).
  split; [exact H2 |]. split; [exact Hk |]. split; [exact Hsd |].
  destruct (X10_generate_eigs_returns (H := diagonal_external) 2 None None
              "poisson" (Some true) quiet_world H2 Hk Hsd)
    as (eigs & w' & Hrun & Hlen & Hsorted & _).
  exists eigs, w'. split; [exact Hrun |]. split; [exact Hlen | exact Hsorted].
Defined.

(** X11. For [matsize >= 0] the matrix the "gue" branch of [generate_eigs]
    hands to the eigenvalue routine is Hermitian: with [a] the first and [b]
    the second [matsize x matsize] block of variates drawn, its entry (i, j)
    is [(a_ij + a_ji) / 2 + i (b_ij - b_ji) / 2].  [mean] and [sd] play no
    part. *)
Theorem X11_gue_matrix_hermitian `{External} (matsize : Z) (mean sd : option R)
    (log : option bool) (w : world) :
  (0 <= matsize)%Z ->
  let n := Z.to_nat matsize in
  let a i j := tape w (i * n + j)%nat in
  let b i j := tape w (i * n + j + n * n)%nat in
  exists m,
    fst (generate_eigs matsize mean sd (Some "gue"%string) log w)
    = Ok (eigvalsh_complex m)
    /\ hermitian n m
    /\ forall i j, (i < n)%nat -> (j < n)%nat ->
         entry_complex m i j = ((a i j + a j i) / 2, (b i j - b j i) / 2).
Proof.
  intros Hn n a b.
  destruct (generate_eigs_quiet matsize mean sd w Hn)
    as (_ & (m & Hrun & Hherm & Hent) & _).
  exists m. rewrite generate_eigs_logging, Hrun.
  split; [reflexivity |]. split; [exact Hherm | exact Hent].
Qed.

Lemma X11_witness :
  (0 <= 2)%Z
  /\ exists m,
       fst (generate_eigs (H := diagonal_external) 2 None None
              (Some "gue"%string) None quiet_world)
       = Ok (eigvalsh_complex (External := diagonal_external) m)
       /\ hermitian 2 m.
Proof.
  assert (H2 : (0 <= 2)%Z) by lia.
  split; [exact H2 |].
  destruct (X11_gue_matrix_hermitian (H := diagonal_external) 2 None None None
              quiet_world H2) as (m & Hrun & Hherm & _).
  exists m. split; [exact Hrun | exact Hherm].
Defined.

(** X12. [mean] and [sd] are read by the "goe" branch only: for every other
    kind, valid or not, [generate_eigs] does the same whatever they are. *)
Theorem X12_mean_and_sd_only_for_goe `{External} (matsize : Z)
    (mean sd mean' sd' : option R) (kind : string) (log : option bool)
    (w : world) :
  kind <> "goe"%string ->
  generate_eigs matsize mean sd (Some kind) log w
  = generate_eigs matsize mean' sd' (Some kind) log w.
Proof.
  intros Hkind. apply String.eqb_neq in Hkind.
  unfold generate_eigs. cbv zeta. cbn [dflt]. rewrite Hkind. reflexivity.
Qed.

Lemma X12_witness :
  "gue"%string <> "goe"%string
  /\ generate_eigs (H := diagonal_external) 2 (Some 4) (Some (- 1))
       (Some "gue"%string) None quiet_world
     = generate_eigs (H := diagonal_external) 2 None None
         (Some "gue"%string) None quiet_world.
Proof.
  assert (Hk : "gue"%string <> "goe"%string) by discriminate.
  split; [exact Hk |].
  exact (X12_mean_and_sd_only_for_goe (H := diagonal_external) 2 (Some 4)
           (Some (- 1)) None None "gue" None quiet_world Hk).
Defined.

(** X13. A [kind] outside "goe", "gue", "poisson" and "uniform" makes
    [generate_eigs] raise [ValueError] with the list of kinds before
    anything is drawn or printed, also when [log] is set. *)
Theorem X13_unknown_kind_rejected `{External} (matsize : Z) (mean sd : option R)
    (kind : string) (log : option bool) (w : world) :
  ~ In kind ["goe"; "gue"; "poisson"; "uniform"]%string ->
  generate_eigs matsize mean sd (Some kind) log w
  = (Raise (ValueError kinds_message), w).
Proof.
  intros Hkind.
  assert (Hgoe : String.eqb kind "goe" = false)
    by (apply String.eqb_neq; intros ->; apply Hkind; cbn; tauto).
  assert (Hgue : String.eqb kind "gue" = false)
    by (apply String.eqb_neq; intros ->; apply Hkind; cbn; tauto).
  assert (Hpoi : String.eqb kind "poisson" = false)
    by (apply String.eqb_neq; intros ->; apply Hkind; cbn; tauto).
  assert (Huni : String.eqb kind "uniform" = false)
    by (apply String.eqb_neq; intros ->; apply Hkind; cbn; tauto).
  unfold generate_eigs. cbv zeta. cbn [dflt].
  rewrite Hgoe, Hgue, Hpoi, Huni. reflexivity.
Qed.

Lemma X13_witness :
  ~ In "gse"%string ["goe"; "gue"; "poisson"; "uniform"]%string
  /\ generate_eigs (H := diagonal_external) 3 None None (Some "gse"%string)
       (Some true) quiet_world
     = (Raise (ValueError kinds_message), quiet_world).
Proof.
  assert (Hk : ~ In "gse"%string ["goe"; "gue"; "poisson"; "uniform"]%string).
  { cbn. intros [Hk | [Hk | [Hk | [Hk | []]]]]; discriminate. }
  split; [exact Hk |].
  exact (X13_unknown_kind_rejected (H := diagonal_external) 3 None None "gse"
           (Some true) quiet_world Hk).
Defined.

(** X14. Logging changes neither the outcome of [generate_eigs] nor the
    generator state it leaves: with [log] set the two log lines are appended
    to the output exactly when the matrix was generated, and nothing is
    printed when the call fails. *)
Theorem X14_logging_is_transparent `{External} (matsize : Z)
    (mean sd : option R) (kind : option string) (w : world) :
  let quiet := generate_eigs matsize mean sd kind None w in
  let loud := generate_eigs matsize mean sd kind (Some true) w in
  fst loud = fst quiet
  /\ tape (snd loud) = tape (snd quiet)
  /\ stdout (snd loud)
     = stdout (snd quiet)
       ++ (match fst quiet with Ok _ => log_lines | Raise _ => [] end)
  /\ generate_eigs matsize mean sd kind (Some false) w = quiet.
Proof.
  intros quiet loud. unfold quiet, loud.
  rewrite (generate_eigs_logging matsize mean sd kind None),
    (generate_eigs_logging matsize mean sd kind (Some true)).
  destruct (generate_eigs matsize mean sd kind (Some false) w)
    as [[eigs | e] w1]; cbn [fst snd dflt tape stdout];
    repeat split; now rewrite app_nil_r.
Qed.

Lemma goe_matrix_negative_size `{External} (size : Z) (mean sd : option R)
    (w : world) :
  (size < 0)%Z ->
  exists msg,
    _generate_GOE_matrix (Some size) mean sd None w = (Raise (ValueError msg), w).
Proof.
  intros Hsize. unfold _generate_GOE_matrix. cbv zeta. cbn [dflt].
  unfold bind at 1. cbn [ret].
  destruct (standard_normal2_negative size size w (or_introl Hsize))
    as (msg & Hmsg).
  destruct (orb (Rneqb (dflt 0 mean) 0) (Rneqb (dflt 1 sd) 1)); unfold bind.
  - unfold Random.normal2.
    destruct (Rlt_dec (dflt 1 sd) 0); [eexists; reflexivity |].
    unfold bind. rewrite Hmsg. now exists msg.
  - rewrite Hmsg. now exists msg.
Qed.

(** X15. A negative size is refused with [ValueError] before anything is
    drawn or printed: by [generate_eigs] for the kinds "goe", "gue" and
    "poisson" (also when [log] is set), by [goe_unfolded], by
    [_generate_poisson] and by [_random_1vector]. *)
Theorem X15_negative_size_rejected `{External} (size : Z) (mean sd : option R)
    (log : option bool) (w : world) :
  (size < 0)%Z ->
  let refused (A : Type) (run : result A * world) :=
    exists msg, run = (Raise (ValueError msg), w) in
  refused _ (generate_eigs size mean sd (Some "goe"%string) log w)
  /\ refused _ (generate_eigs size mean sd (Some "gue"%string) log w)
  /\ refused _ (generate_eigs size mean sd (Some "poisson"%string) log w)
  /\ refused _ (goe_unfolded size w)
  /\ refused _ (_generate_poisson (Some size) w)
  /\ refused _ (_random_1vector (Some size) w).
Proof.
  intros Hsize refused. unfold refused.
  destruct (standard_normal2_negative size size w (or_introl Hsize))
    as (msg2 & Hmsg2).
  destruct (standard_normal2_negative size 1 w (or_introl Hsize))
    as (msg1 & Hmsg1).
  assert (Hpoi : _generate_poisson (Some size) w
                 = (Raise (ValueError "negative dimensions are not allowed"), w)).
  { unfold _generate_poisson, Random.standard_normal. cbv zeta. cbn [dflt].
    destruct (Z.ltb_spec size 0); [reflexivity | lia]. }
  repeat match goal with |- _ /\ _ => split end.
  - destruct (goe_matrix_negative_size size (Some (dflt 0 mean))
                (Some (dflt 1 sd)) w Hsize) as (msg & Hmsg).
    exists msg. rewrite generate_eigs_logging.
    unfold generate_eigs. cbv zeta. cbn [dflt String.eqb Ascii.eqb Bool.eqb].
    unfold bind. now rewrite Hmsg.
  - exists msg2. rewrite generate_eigs_logging.
    unfold generate_eigs. cbv zeta. cbn [dflt String.eqb Ascii.eqb Bool.eqb].
    unfold bind. now rewrite Hmsg2.
  - eexists. rewrite generate_eigs_logging.
    unfold generate_eigs. cbv zeta. cbn [dflt String.eqb Ascii.eqb Bool.eqb].
    unfold bind. rewrite Hpoi. reflexivity.
  - destruct (goe_matrix_negative_size size (Some 0) (Some 1) w Hsize)
      as (msg & Hmsg).
    exists msg. unfold goe_unfolded. cbv zeta. unfold bind at 1.
    now rewrite Hmsg.
  - eexists. exact Hpoi.
  - exists msg1. unfold _random_1vector. cbv zeta. cbn [dflt].
    unfold bind. now rewrite Hmsg1.
Qed.

Lemma X15_witness :
  (-1 < 0)%Z
  /\ exists msg,
       goe_unfolded (H := diagonal_external) (-1) quiet_world
       = (Raise (ValueError msg), quiet_world).
Proof.
  assert (Hs : (-1 < 0)%Z) by lia.
  split; [exact Hs |].
  exact (proj1 (proj2 (proj2 (proj2
           (X15_negative_size_rejected (H := diagonal_external) (-1) None None
              None quiet_world Hs))))).
Defined.

(** X16. With [matsize >= 100], a zero [sub_matsize] makes
    [fast_poisson_eigs] fail with [ZeroDivisionError] and a negative one
    with [ValueError] (no array of a negative width can be allocated); in
    both cases nothing has been drawn or printed. *)
Theorem X16_fast_poisson_nonpositive_sub `{External} (matsize sub_matsize : Z)
    (w : world) :
  (100 <= matsize)%Z -> (sub_matsize <= 0)%Z ->
  exists e,
    fast_poisson_eigs (Some matsize) (Some sub_matsize) w = (Raise e, w)
    /\ (sub_matsize = 0%Z -> e = ZeroDivisionError)
    /\ ((sub_matsize < 0)%Z -> exists msg, e = ValueError msg).
Proof.
  intros Hm Hsub. unfold fast_poisson_eigs. cbv zeta. cbn [dflt].
  destruct (Z.ltb_spec matsize 100); [lia |].
  destruct (Z.geb_spec sub_matsize matsize); [lia |].
  unfold bind at 1. unfold lift at 1, int_truediv.
  destruct (Z.eqb_spec sub_matsize 0) as [-> | Hne].
  - eexists. split; [reflexivity |]. split; [reflexivity | lia].
  - unfold bind at 1. unfold lift at 1, Arr.empty2.
    assert (Hneg : (sub_matsize <? 0)%Z = true) by (apply Z.ltb_lt; lia).
    rewrite Hneg, orb_true_r.
    eexists. split; [reflexivity |]. split; [lia |].
    intros _. eexists. reflexivity.
Qed.

Lemma X16_witness :
  (100 <= 100)%Z /\ (0 <= 0)%Z
  /\ exists e,
       fast_poisson_eigs (H := diagonal_external) (Some 100%Z) (Some 0%Z)
         quiet_world = (Raise e, quiet_world)
       /\ (0%Z = 0%Z -> e = ZeroDivisionError).
Proof.
  assert (Hm : (100 <= 100)%Z) by lia.
  assert (Hs : (0 <= 0)%Z) by lia.
  split; [exact Hm |]. split; [exact Hs |].
  destruct (X16_fast_poisson_nonpositive_sub (H := diagonal_external) 100 0
              quiet_world Hm Hs) as (e & Hrun & Hzero & _).
  exists e. split; [exact Hrun | exact Hzero].
Defined.

(** X17. The final [raise ValueError("Unreachable!")] of the closed form in
    [goe_unfolded] is reached exactly when the matrix size is negative or
    the eigenvalue is [nan]; in particular never for a finite or infinite
    eigenvalue of a matrix of size [N >= 0]. *)
Theorem X17_explicit_unreachable_iff (N : Z) (E : float64) :
  raises (explicit N E) <-> (N < 0)%Z \/ E = NaN.
Proof.
  unfold explicit, F64.of_Z. cbv zeta.
  destruct (Z.ltb_spec N 0) as [Hneg | Hpos].
  - assert (Hn : IZR N < 0) by now apply (IZR_lt N 0).
    assert (Hs : F64.sqrt (Fin (IZR N)) = NaN).
    { unfold F64.sqrt. destruct (Rlt_dec (IZR N) 0); [reflexivity | lra]. }
    rewrite Hs. split; [intros _; now left |]. intros _.
    destruct E; cbn; exact I.
  - assert (Hn : 0 <= IZR N) by now apply (IZR_le 0 N).
    rewrite sqrt_nonneg by assumption.
    split.
    + intros Hr. right. destruct E as [e | | |]; try reflexivity; exfalso.
      * revert Hr. cbn [F64.abs F64.mul F64.opp].
        unfold F64.leb, F64.ltb.
        destruct (Rle_dec (Rabs e) (2 * sqrt (IZR N))) as [Hle | Hgt];
          [intros [] |].
        destruct (Rlt_dec e (-2 * sqrt (IZR N))) as [Hlo | Hnlo];
          [intros [] |].
        destruct (Rlt_dec (2 * sqrt (IZR N)) e) as [Hhi | Hnhi];
          [intros [] |].
        intros _. apply Hgt. unfold Rabs. destruct (Rcase_abs e); lra.
      * exact Hr.
      * exact Hr.
    + intros [Hlt | ->]; [lia |]. exact I.
Qed.

Lemma identity_entry (n : nat) i j :
  (i < n)%nat -> (j < n)%nat ->
  entry (map (fun i => map (fun j => if Nat.eqb i j then 1 else 0) (seq 0 n))
           (seq 0 n)) i j
  = if Nat.eqb i j then 1 else 0.
Proof.
  intros Hi Hj. unfold entry.
  rewrite nth_map_seq by assumption. now rewrite nth_map_seq by assumption.
Qed.

Lemma identity_square (n : nat) :
  square n (map (fun i => map (fun j => if Nat.eqb i j then 1 else 0) (seq 0 n))
              (seq 0 n)).
Proof.
  unfold square. rewrite length_map, length_seq. split; [reflexivity |].
  apply Forall_forall. intros row Hrow. apply in_map_iff in Hrow.
  destruct Hrow as (i & <- & _). now rewrite length_map, length_seq.
Qed.

(** X18. For a size [n >= 0], [_almost_identity] returns the identity
    matrix plus the matrix [_generate_GOE_matrix] would build from the same
    generator state with its default mean and deviation; the sum is
    symmetric, and exactly [n * n] variates are consumed. *)
Theorem X18_almost_identity_is_identity_plus_goe `{External} (size : Z)
    (w : world) :
  (0 <= size)%Z ->
  let n := Z.to_nat size in
  exists g m,
    _generate_GOE_matrix (Some size) None None None w = (Ok g, advanced (n * n) w)
    /\ _almost_identity (Some size) w = (Ok m, advanced (n * n) w)
    /\ symmetric n m
    /\ forall i j, (i < n)%nat -> (j < n)%nat ->
         entry m i j = (if Nat.eqb i j then 1 else 0) + entry g i j.
Proof.
  intros Hsize n.
  assert (Hsd : 0 <= dflt 1 None) by (cbn; lra).
  destruct (goe_matrix_run size None None w Hsize Hsd) as (g0 & Hg0 & _ & Hent0).
  fold n in Hg0, Hent0.
  set (flat := map (tape w) (seq 0 (n * n))).
  set (z := map (fun r => firstn n (skipn (r * n) flat)) (seq 0 n)).
  set (g := Arr.map_entries (fun x => x / sqrt 2)
              (Arr.zip_with Rplus z (Arr.transpose 0 z))).
  assert (Hg : _generate_GOE_matrix (Some size) None None None w
               = (Ok g, advanced (n * n) w)).
  { unfold _generate_GOE_matrix. cbv zeta. cbn [dflt]. unfold Rneqb.
    destruct (Req_dec_T 0 0) as [_ | Hne]; [| now elim Hne].
    destruct (Req_dec_T 1 1) as [_ | Hne]; [| now elim Hne]. cbn [orb].
    unfold bind at 1. cbn [ret]. unfold bind, Random.standard_normal2.
    destruct (Z.ltb_spec size 0); [lia |]. cbn [orb].
    unfold bind. rewrite draw_run. reflexivity. }
  rewrite Hg in Hg0. injection Hg0 as <-.
  assert (Hz : square n z).
  { apply rows_shape. unfold flat. now rewrite length_map, length_seq. }
  assert (Hgsq : square n g).
  { apply map_entries_square, zip_with_square; [assumption |].
    now apply transpose_square. }
  set (Mi := map (fun i => map (fun j => if Nat.eqb i j then 1 else 0) (seq 0 n))
               (seq 0 n)).
  assert (Hrun : _almost_identity (Some size) w
                 = (Ok (Arr.zip_with Rplus Mi g), advanced (n * n) w)).
  { unfold _almost_identity, Random.standard_normal. cbv zeta. cbn [dflt].
    destruct (Z.ltb_spec (size * size) 0); [nia |].
    unfold bind at 1. rewrite draw_run.
    assert (Hk : Z.to_nat (size * size) = (n * n)%nat)
      by (unfold n; now rewrite Z2Nat.inj_mul).
    rewrite Hk. fold flat.
    unfold bind at 1. unfold lift at 1, reshape_square.
    destruct (Z.ltb_spec size 0); [lia |]. fold n.
    assert (Hlen : Nat.eqb (n * n) (length flat) = true)
      by (unfold flat; rewrite length_map, length_seq; apply Nat.eqb_refl).
    rewrite Hlen. cbn [negb]. fold z. fold g.
    unfold bind, lift, ma_identity.
    destruct (Z.ltb_spec size 0); [lia |]. reflexivity. }
  assert (Hent : forall i j, (i < n)%nat -> (j < n)%nat ->
             entry (Arr.zip_with Rplus Mi g) i j
             = (if Nat.eqb i j then 1 else 0) + entry g i j).
  { intros i j Hi Hj. unfold entry at 1.
    rewrite (zip_with_entry _ n _ _ 0 0)
      by (first [assumption | apply identity_square]).
    fold (entry Mi i j). fold (entry g i j).
    unfold Mi. now rewrite identity_entry. }
  exists g, (Arr.zip_with Rplus Mi g).
  split; [exact Hg |]. split; [exact Hrun |]. split; [| exact Hent].
  split; [apply zip_with_square; [apply identity_square | assumption] |].
  intros i j Hi Hj. rewrite (Hent i j Hi Hj), (Hent j i Hj Hi).
  rewrite (Hent0 i j Hi Hj), (Hent0 j i Hj Hi), (Nat.eqb_sym j i).
  f_equal. f_equal. ring.
Qed.

Lemma X18_witness :
  (0 <= 2)%Z
  /\ exists m,
       _almost_identity (Some 2%Z) quiet_world = (Ok m, advanced 4 quiet_world)
       /\ symmetric 2 m.
Proof.
  assert (H2 : (0 <= 2)%Z) by lia.
  split; [exact H2 |].
  destruct (X18_almost_identity_is_identity_plus_goe (H := diagonal_external) 2
              quiet_world H2) as (g & m & _ & Hrun & Hsym & _).
  exists m. split; [exact Hrun | exact Hsym].
Defined.

(** X19. [_almost_identity] draws before it checks: for a negative size it
    consumes [size * size] variates and only then fails with [ValueError],
    when the array is reshaped. *)
Theorem X19_almost_identity_negative_size (size : Z) (w : world) :
  (size < 0)%Z ->
  exists msg,
    _almost_identity (Some size) w
    = (Raise (ValueError msg), advanced (Z.to_nat (size * size)) w).
Proof.
  intros Hsize. unfold _almost_identity, Random.standard_normal. cbv zeta.
  cbn [dflt]. destruct (Z.ltb_spec (size * size) 0); [nia |].
  unfold bind at 1. rewrite draw_run.
  unfold bind at 1. unfold lift at 1, reshape_square.
  destruct (Z.ltb_spec size 0); [| lia].
  eexists. reflexivity.
Qed.

Lemma X19_witness :
  (-2 < 0)%Z
  /\ exists msg,
       _almost_identity (Some (-2)%Z) quiet_world
       = (Raise (ValueError msg), advanced (Z.to_nat (-2 * -2)) quiet_world).
Proof.
  assert (Hs : (-2 < 0)%Z) by lia.
  split; [exact Hs |].
  exact (X19_almost_identity_negative_size (-2) quiet_world Hs).
Defined.

(** X20. For a size [n >= 0], [_random_1vector] returns the n x n table of
    products [v_i * v_j] of the [n] variates it draws, a symmetric matrix,
    and consumes exactly those [n] variates. *)
Theorem X20_random_1vector_outer_product (size : Z) (w : world) :
  (0 <= size)%Z ->
  let n := Z.to_nat size in
  exists m,
    _random_1vector (Some size) w = (Ok m, advanced n w)
    /\ symmetric n m
    /\ forall i j, (i < n)%nat -> (j < n)%nat ->
         entry m i j = tape w i * tape w j.
Proof.
  intros Hsize n.
  assert (H1 : (0 <= 1)%Z) by lia.
  destruct (standard_normal2_run size 1 w Hsize H1)
    as (vals & Hvals & Hlen & Hrows & Hent).
  fold n in Hvals, Hlen, Hent.
  replace (Z.to_nat 1) with 1%nat in * by reflexivity.
  rewrite Nat.mul_1_r in Hvals.
  assert (Hv : forall i, (i < n)%nat -> nth 0 (nth i vals []) 0 = tape w i).
  { intros i Hi. specialize (Hent i 0%nat Hi ltac:(lia)).
    unfold entry in Hent. rewrite Hent. f_equal. lia. }
  set (m := broadcast_mul vals (Arr.transpose 0 vals)).
  assert (Hrow : n <> 0%nat ->
                 nth 0 (Arr.transpose 0 vals) []
                 = map (fun r => nth 0 r 0) vals).
  { intros Hn0. destruct vals as [| row rest]; [cbn in Hlen; lia |].
    inversion Hrows as [| ? ? Hr _]; subst. unfold Arr.transpose.
    rewrite Hr. reflexivity. }
  assert (Hm : forall i j, (i < n)%nat -> (j < n)%nat ->
             entry m i j = tape w i * tape w j).
  { intros i j Hi Hj. unfold entry, m, broadcast_mul.
    rewrite (nth_map_in _ _ _ []) by (rewrite Hlen; assumption).
    rewrite Hrow by lia.
    rewrite (nth_map_in _ _ _ 0) by (rewrite length_map, Hlen; assumption).
    rewrite (nth_map_in _ _ _ []) by (rewrite Hlen; assumption).
    now rewrite !Hv by assumption. }
  exists m. split.
  { unfold _random_1vector. cbv zeta. cbn [dflt]. unfold bind.
    now rewrite Hvals. }
  split; [| exact Hm].
  split.
  - unfold square, m, broadcast_mul. rewrite length_map. split; [exact Hlen |].
    apply Forall_forall. intros row Hin. apply in_map_iff in Hin.
    destruct Hin as (r & <- & Hr). rewrite length_map.
    destruct (Nat.eq_dec n 0) as [Hn0 | Hn0].
    + destruct vals; [contradiction | cbn in Hlen; lia].
    + now rewrite Hrow, length_map by assumption.
  - intros i j Hi Hj. rewrite (Hm i j Hi Hj), (Hm j i Hj Hi). ring.
Qed.

Lemma X20_witness :
  (0 <= 3)%Z
  /\ exists m,
       _random_1vector (Some 3%Z) quiet_world = (Ok m, advanced 3 quiet_world)
       /\ symmetric 3 m.
Proof.
  assert (H3 : (0 <= 3)%Z) by lia.
  split; [exact H3 |].
  destruct (X20_random_1vector_outer_product 3 quiet_world H3)
    as (m & Hrun & Hsym & _).
  exists m. split; [exact Hrun | exact Hsym].
Defined.

(** X21. For a size [n >= 0], [_generate_poisson] returns the n x n matrix
    with the [n] variates it draws on the diagonal and zeros elsewhere, and
    the "poisson" branch of [generate_eigs] returns the eigenvalues of
    exactly that matrix. *)
Theorem X21_poisson_matrix_diagonal `{External} (matsize : Z)
    (mean sd : option R) (log : option bool) (w : world) :
  (0 <= matsize)%Z ->
  let n := Z.to_nat matsize in
  exists d,
    _generate_poisson (Some matsize) w = (Ok d, advanced n w)
    /\ square n d
    /\ (forall i j, (i < n)%nat -> (j < n)%nat ->
          entry d i j = if Nat.eqb i j then tape w i else 0)
    /\ fst (generate_eigs matsize mean sd (Some "poisson"%string) log w)
       = Ok (eigvalsh d).
Proof.
  intros Hn n. set (v := map (tape w) (seq 0 n)).
  assert (Hlen : length v = n) by (unfold v; now rewrite length_map, length_seq).
  exists (Arr.diag v).
  split; [now apply generate_poisson_run |].
  split; [rewrite <- Hlen at 1; apply diag_square |].
  split.
  - intros i j Hi Hj. rewrite diag_entry by (rewrite Hlen; assumption).
    unfold v. now rewrite drawn_nth.
  - destruct (generate_eigs_quiet matsize mean sd w Hn) as (_ & _ & Hrun).
    rewrite generate_eigs_logging, Hrun. reflexivity.
Qed.

Lemma X21_witness :
  (0 <= 2)%Z
  /\ exists d,
       _generate_poisson (Some 2%Z) quiet_world = (Ok d, advanced 2 quiet_world)
       /\ square 2 d.
Proof.
  assert (H2 : (0 <= 2)%Z) by lia.
  split; [exact H2 |].
  destruct (X21_poisson_matrix_diagonal (H := diagonal_external) 2 None None
              None quiet_world H2) as (d & Hrun & Hsq & _).
  exists d. split; [exact Hrun | exact Hsq].
Defined.

(* ================================================================= *)
(** ** Further properties of rmt/unfold.py *)

Lemma two_columns (a b : string) (L stat : list float64) :
  pd_DataFrame [(a, L); (b, stat)]
  = if Nat.eqb (length stat) (length L) then Ok [(a, L); (b, stat)]
    else Raise (ValueError "All arrays must be of the same length").
Proof.
  unfold pd_DataFrame. cbn [forallb snd]. now rewrite andb_true_r.
Qed.

(** X22. [plot_spectral_rigidity] and [plot_level_variance] return
    [(L, statistic, plot)] exactly when the estimator returned [(L,
    statistic)] with as many [L] values as statistics and the renderer then
    returned [plot] on the table of those two columns; a failure of the
    estimator is passed on as it is, the renderer not having run. *)
Theorem X22_plots_return_the_estimate `{Analysis} (self : Unfolded.t)
    (min_L max_L : option R) (L_grid_size c_iters : option Z)
    (title mode outfile : option string) (ensembles : option (list string))
    (show_progress : option bool) (w : world) :
  let rigidity :=
    Unfolded.plot_spectral_rigidity self min_L max_L L_grid_size c_iters title
      mode outfile ensembles show_progress in
  let variance :=
    Unfolded.plot_level_variance self min_L max_L c_iters L_grid_size title
      mode outfile ensembles show_progress in
  let estimate_rigidity :=
    spectralRigidity (Unfolded.values self) (dflt 50000%Z c_iters) L_grid_size
      (dflt 2 min_L) (dflt 50 max_L) (dflt true show_progress) in
  let estimate_variance :=
    level_number_variance (Unfolded.values self) (dflt 50000%Z c_iters)
      L_grid_size (dflt 2 min_L) (dflt 50 max_L) (dflt true show_progress) in
  (forall L delta p w',
      rigidity w = (Ok (L, delta, p), w')
      <-> exists w1,
            estimate_rigidity w = (Ok (L, delta), w1)
            /\ length L = length delta
            /\ plot_spectral_rigidity_ (Unfolded.values self)
                 [("L"%string, L); ("delta"%string, delta)]
                 (dflt "Spectral Rigidity"%string title)
                 (dflt "block"%string mode) outfile
                 (dflt Unfolded.default_ensembles ensembles) w1
               = (Ok p, w'))
  /\ (forall L sigma p w',
        variance w = (Ok (L, sigma, p), w')
        <-> exists w1,
              estimate_variance w = (Ok (L, sigma), w1)
              /\ length L = length sigma
              /\ plot_level_number_variance_ (Unfolded.values self)
                   [("L"%string, L); ("sigma"%string, sigma)]
                   (dflt "Level Number Variance"%string title)
                   (dflt "block"%string mode) outfile
                   (dflt Unfolded.default_ensembles ensembles) w1
                 = (Ok p, w'))
  /\ (forall e w1, estimate_rigidity w = (Raise e, w1) ->
        rigidity w = (Raise e, w1))
  /\ (forall e w1, estimate_variance w = (Raise e, w1) ->
        variance w = (Raise e, w1)).
Proof.
  intros rigidity variance estimate_rigidity estimate_variance.
  unfold rigidity, variance, estimate_rigidity, estimate_variance,
    Unfolded.plot_spectral_rigidity, Unfolded.plot_level_variance.
  cbv zeta.
  split; [| split; [| split]].
  - intros L delta p w'. unfold bind at 1.
    destruct (spectralRigidity _ _ _ _ _ _ w) as [[[L0 d0] | e] w1].
    + cbn [fst snd]. unfold bind at 1. unfold lift at 1.
      rewrite two_columns.
      destruct (Nat.eqb (length d0) (length L0)) eqn:Hlen.
      * apply Nat.eqb_eq in Hlen. unfold bind, ret.
        destruct (plot_spectral_rigidity_ _ _ _ _ _ _ w1) as [[p0 | e] w2] eqn:Hp.
        -- split.
           ++ intros Heq. injection Heq as <- <- <- <-.
              exists w1. repeat split; [congruence | exact Hp].
           ++ intros (w1' & Hest & _ & Hplot).
              injection Hest as <- <- <-. rewrite Hp in Hplot.
              now injection Hplot as <- <-.
        -- split; [discriminate |].
           intros (w1' & Hest & _ & Hplot).
           injection Hest as <- <- <-. rewrite Hp in Hplot. discriminate.
      * apply Nat.eqb_neq in Hlen. split; [discriminate |].
        intros (w1' & Hest & Hl & _). injection Hest as <- <- <-. congruence.
    + split; [discriminate |]. intros (w1' & Hest & _). discriminate.
  - intros L sigma p w'. unfold bind at 1.
    destruct (level_number_variance _ _ _ _ _ _ w) as [[[L0 s0] | e] w1].
    + cbn [fst snd]. unfold bind at 1. unfold lift at 1.
      rewrite two_columns.
      destruct (Nat.eqb (length s0) (length L0)) eqn:Hlen.
      * apply Nat.eqb_eq in Hlen. unfold bind, ret.
        destruct (plot_level_number_variance_ _ _ _ _ _ _ w1)
          as [[p0 | e] w2] eqn:Hp.
        -- split.
           ++ intros Heq. injection Heq as <- <- <- <-.
              exists w1. repeat split; [congruence | exact Hp].
           ++ intros (w1' & Hest & _ & Hplot).
              injection Hest as <- <- <-. rewrite Hp in Hplot.
              now injection Hplot as <- <-.
        -- split; [discriminate |].
           intros (w1' & Hest & _ & Hplot).
           injection Hest as <- <- <-. rewrite Hp in Hplot. discriminate.
      * apply Nat.eqb_neq in Hlen. split; [discriminate |].
        intros (w1' & Hest & Hl & _). injection Hest as <- <- <-. congruence.
    + split; [discriminate |]. intros (w1' & Hest & _). discriminate.
  - intros e w1 Hest. unfold bind at 1. now rewrite Hest.
  - intros e w1 Hest. unfold bind at 1. now rewrite Hest.
Qed.

(* ================================================================= *)
(** ** How many variates fast_poisson_eigs consumes *)

Lemma submatrix_loop_draws `{External} (sub : Z) :
  (0 <= sub)%Z ->
  forall (k : nat) (done rest : matrix R) (w : world),
    length rest = k ->
    Forall (fun r => length r = Z.to_nat sub) rest ->
    exists blocks w',
      for_each (seq (length done) k)
        (fun i eigs_submats =>
           Mx <- _generate_GOE_matrix (Some sub) None None None ;;
           let sub_eigs := eigvalsh Mx in
           lift (Arr.set_row i sub_eigs eigs_submats))
        (done ++ rest) w
      = (Ok (done ++ blocks), w')
      /\ (forall i, tape w' i
                    = tape w (i + k * (Z.to_nat sub * Z.to_nat sub))%nat)
      /\ stdout w' = stdout w.
Proof.
  intros Hsub k. induction k as [| k IH]; intros done rest w Hlen Hrows.
  - destruct rest; [| discriminate]. exists [], w. cbn [seq for_each ret].
    split; [reflexivity |]. split; [| reflexivity].
    intros i. f_equal. lia.
  - destruct rest as [| old rest]; [discriminate |].
    injection Hlen as Hlen. inversion Hrows as [| ? ? Hold Hrest]; subst.
    assert (Hsd : 0 <= dflt 1 None) by (cbn; lra).
    destruct (goe_matrix_run sub None None w Hsub Hsd) as (m & Hm & Hsq & _).
    cbn [seq for_each]. unfold bind at 1. unfold bind at 1. rewrite Hm.
    unfold lift at 1.
    rewrite set_row_middle
      by (rewrite Hold; now apply eigvalsh_length).
    specialize (IH (done ++ [eigvalsh m]) rest
                  (advanced (Z.to_nat sub * Z.to_nat sub) w) eq_refl Hrest).
    rewrite length_app, Nat.add_1_r, <- app_assoc in IH. cbn [app] in IH.
    destruct IH as (blocks & w' & Hrun & Htape & Hout).
    exists (eigvalsh m :: blocks), w'.
    rewrite Hrun, <- app_assoc. cbn [app].
    split; [reflexivity |]. split; [| exact Hout].
    intros i. rewrite Htape. cbn [advanced tape]. f_equal. lia.
Qed.

(** X23. For [matsize >= 100] and [1 <= sub_matsize < matsize],
    [fast_poisson_eigs] consumes [q * sub_matsize^2 + r^2] variates, where
    [q] and [r] are the quotient and the remainder of [matsize] by
    [sub_matsize]; that is at most [sub_matsize * matsize] and fewer than
    the [matsize^2] of one full matrix.  Nothing is printed. *)
Theorem X23_fast_poisson_eigs_draws `{External} (matsize sub_matsize : Z)
    (w : world) :
  (100 <= matsize)%Z ->
  (1 <= sub_matsize < matsize)%Z ->
  let n := Z.to_nat matsize in
  let s := Z.to_nat sub_matsize in
  let q := Z.to_nat (matsize / sub_matsize) in
  let r := Z.to_nat (matsize mod sub_matsize) in
  let drawn := (q * (s * s) + r * r)%nat in
  exists eigs w',
    fast_poisson_eigs (Some matsize) (Some sub_matsize) w = (Ok eigs, w')
    /\ (forall i, tape w' i = tape w (i + drawn)%nat)
    /\ stdout w' = stdout w
    /\ (drawn <= s * n)%nat
    /\ (drawn < n * n)%nat.
Proof.
  intros Hmat Hsub n s q r drawn.
  unfold fast_poisson_eigs. cbv zeta. cbn [dflt].
  destruct (Z.ltb_spec matsize 100) as [Hlt | _]; [lia |].
  destruct (Z.geb_spec sub_matsize matsize) as [Hge | _]; [lia |].
  unfold int_truediv.
  destruct (Z.eqb_spec sub_matsize 0) as [H0 | _]; [lia |].
  rewrite Z.quot_div_nonneg by lia.
  assert (Hq : (0 <= matsize / sub_matsize)%Z) by (apply Z.div_pos; lia).
  assert (Hr : (0 <= matsize mod sub_matsize < sub_matsize)%Z)
    by (apply Z.mod_pos_bound; lia).
  destruct (empty2_rows (matsize / sub_matsize) sub_matsize Hq ltac:(lia))
    as (a & Ha & Hlen & Hrows).
  destruct (submatrix_loop_draws sub_matsize ltac:(lia) q [] a w Hlen Hrows)
    as (blocks & w1 & Hloop & Htape & Hout).
  assert (Hsd : 0 <= dflt 1 None) by (cbn; lra).
  destruct (goe_matrix_run (matsize mod sub_matsize) None None w1
              ltac:(lia) Hsd) as (mr & Hmr & _ & _).
  unfold bind at 1. unfold lift at 1. unfold bind at 1. unfold lift at 1.
  rewrite Ha. unfold bind at 1. unfold for_range.
  cbn [length app] in Hloop. fold q. rewrite Hloop.
  unfold bind at 1. rewrite Hmr. cbn [ret].
  eexists _, _. split; [reflexivity |].
  split.
  { intros i. cbn [advanced tape]. rewrite Htape. fold s r.
    unfold drawn. f_equal. lia. }
  split; [exact Hout |].
  assert (Hn : n = (q * s + r)%nat).
  { unfold n, q, s, r.
    rewrite (Z.div_mod matsize sub_matsize) at 1 by lia.
    rewrite Z2Nat.inj_add, Z2Nat.inj_mul by lia. lia. }
  assert (Hrs : (r < s)%nat) by (unfold r, s; lia).
  assert (Hsn : (s < n)%nat) by (unfold s, n; lia).
  assert (Hle : (drawn <= s * n)%nat) by (unfold drawn; nia).
  split; [exact Hle |]. nia.
Qed.

Lemma X23_witness :
  (100 <= 1024)%Z /\ (1 <= 100 < 1024)%Z
  /\ exists (eigs : list R) (w' : world),
       fast_poisson_eigs (H := diagonal_external) (Some 1024%Z) (Some 100%Z)
         quiet_world = (Ok eigs, w')
       /\ stdout w' = stdout quiet_world.
Proof.
  assert (Hm : (100 <= 1024)%Z) by lia.
  assert (Hs : (1 <= 100 < 1024)%Z) by lia.
  split; [exact Hm |]. split; [exact Hs |].
  destruct (X23_fast_poisson_eigs_draws (H := diagonal_external) 1024 100
              quiet_world Hm Hs) as (eigs & w' & Hrun & _ & Hout & _).
  exists eigs, w'. split; [exact Hrun | exact Hout].
Defined.
